(** * Chained hash table, benchmark lookups and factorial

    A shallow embedding of [Question1.py] (class [HashTableSeparateChaining]
    and the lookup passes of [InventorySystem.benchmark_search]) and of
    [factorial] from [Question3.py], with the properties of the
    specification stated and proved over it.

    Conventions of the embedding.
    - Python integers are [Z].  A Python exception is the [Raise] branch of
      [result]; a normal return is [Ok].
    - A value of type [Any] is either Python's [None] or an object.
    - [self] is threaded explicitly: a mutating method returns the new table.
    - [hash] is a parameter: any function from strings to integers.
    - [insert] and [_resize] call each other; the embedding bounds the depth
      of that nesting by a natural number and raises [RecursionError] beyond.
    - [load_factor] is the exact quotient in [Q]; the 64-bit float quotient
      of the source compares with 0.75 in the same way for every capacity
      below 2^52.

    The later parts embed the remaining methods of [InventorySystem] over
    a store of objects, since [edit_product] relies on the table and the
    array sharing them, and [DirectedGraph] with the graph methods of
    [SlowGramApp] from [Question2.py]. *)

From Stdlib Require Import ZArith QArith Lia Factorial.
From stdpp Require Import base option list strings gmap sorting.

Close Scope Q_scope.

(** ** Exceptions and results *)

Inductive exn := ValueError | IndexError | ZeroDivisionError | RecursionError.

Inductive result (A : Type) :=
  | Ok (a : A)
  | Raise (e : exn).
Arguments Ok {A} a.
Arguments Raise {A} e.

#[global] Instance result_ret : MRet result := λ A a, Ok a.
#[global] Instance result_bind : MBind result := λ A B f m,
  match m with
  | Ok a => f a
  | Raise e => Raise e
  end.

(** [for x in l: s = body(s, x)], stopping at the first exception. *)
Fixpoint for_each {A S : Type} (body : S → A → result S) (l : list A) (s : S)
  : result S :=
  match l with
  | [] => Ok s
  | x :: rest => s' ← body s x; for_each body rest s'
  end.

(** ** Python values *)

Inductive Any (Obj : Type) :=
  | PyNone
  | PyObj (o : Obj).
Arguments PyNone {Obj}.
Arguments PyObj {Obj} o.

(** [v is not None] *)
Definition is_not_None {Obj} (v : Any Obj) : bool :=
  match v with
  | PyNone => false
  | PyObj _ => true
  end.

(** [l[i]] on a list of length [len]: a negative index counts from the end,
    an index out of range raises [IndexError].  The result is the position. *)
Definition py_index (len : nat) (i : Z) : result nat :=
  let j := if (i <? 0)%Z then (i + Z.of_nat len)%Z else i in
  if ((0 <=? j) && (j <? Z.of_nat len))%Z then Ok (Z.to_nat j)
  else Raise IndexError.

(** [range(a, b)] *)
Definition range (a b : Z) : list Z := seqZ a (b - a).

(** ** Question1.py: HashTableSeparateChaining *)

Module HashTableSeparateChaining.

Record t (Obj : Type) := Build {
  _capacity : Z;
  _buckets : list (list (string * Any Obj));
  _size : Z
}.
Arguments Build {Obj} _ _ _.
Arguments _capacity {Obj} _.
Arguments _buckets {Obj} _.
Arguments _size {Obj} _.

Section Methods.
Context {Obj : Type}.
Variable hash : string → Z.

Abbreviation table := (t Obj).
Abbreviation entry := (string * Any Obj)%type.

Definition __init__ (capacity : Z) : table :=
  let cap := Z.max 5 capacity in
  Build cap (replicate (Z.to_nat cap) []) 0.

Definition _index (self : table) (key : string) : result Z :=
  if (_capacity self =? 0)%Z then Raise ZeroDivisionError
  else Ok (hash key `mod` _capacity self)%Z.

Definition load_factor (self : table) : result Q :=
  if (_capacity self =? 0)%Z then Raise ZeroDivisionError
  else Ok (inject_Z (_size self) / inject_Z (_capacity self))%Q.

Definition _should_resize (self : table) : result bool :=
  lf ← load_factor self;
  Ok (negb (Qle_bool lf (3 # 4))).

(** [self._buckets[self._index(key)]]: the position and the bucket. *)
Definition _bucket (self : table) (key : string)
  : result (nat * list entry) :=
  idx ← _index self key;
  j ← py_index (length (_buckets self)) idx;
  match _buckets self !! j with
  | Some bucket => Ok (j, bucket)
  | None => Raise IndexError
  end.

(** The scan [for i, (k, _) in enumerate(bucket): if k == key] stops at
    the first entry whose key is [key]. *)
Definition scan (key : string) (bucket : list entry)
  : option (nat * entry) :=
  list_find (λ e, e.1 = key) bucket.

Definition _resize_with
    (insert : table → string → Any Obj → bool → result (bool * table))
    (self : table) (new_capacity : Z) : result table :=
  let old_items := concat (_buckets self) in
  let cap := Z.max 5 new_capacity in
  for_each (λ self' e, r ← insert self' e.1 e.2 true; Ok r.2)
           old_items
           (Build cap (replicate (Z.to_nat cap) []) 0).

Fixpoint insert (depth : nat) (self : table) (key : string)
    (value : Any Obj) (allow_update : bool) : result (bool * table) :=
  match depth with
  | O => Raise RecursionError
  | S depth' =>
    '(j, bucket) ← _bucket self key;
    match scan key bucket with
    | Some (i, _) =>
        if allow_update then
          Ok (true, Build (_capacity self)
                          (<[j := <[i := (key, value)]> bucket]> (_buckets self))
                          (_size self))
        else Ok (false, self)
    | None =>
        let self1 := Build (_capacity self)
                           (<[j := bucket ++ [(key, value)]]> (_buckets self))
                           (_size self + 1) in
        grow ← _should_resize self1;
        if (grow : bool) then
          self2 ← _resize_with (insert depth') self1 (_capacity self1 * 2 + 1);
          Ok (true, self2)
        else Ok (true, self1)
    end
  end.

Definition _resize (depth : nat) (self : table) (new_capacity : Z)
  : result table :=
  _resize_with (insert depth) self new_capacity.

Definition get (self : table) (key : string) : result (Any Obj) :=
  '(j, bucket) ← _bucket self key;
  match scan key bucket with
  | Some (_, (_, v)) => Ok v
  | None => Ok PyNone
  end.

Definition delete (self : table) (key : string) : result (bool * table) :=
  '(j, bucket) ← _bucket self key;
  match scan key bucket with
  | Some (i, _) =>
      Ok (true, Build (_capacity self)
                      (<[j := base.delete i bucket]> (_buckets self))
                      (_size self - 1))
  | None => Ok (false, self)
  end.

Definition contains (self : table) (key : string) : result bool :=
  v ← get self key;
  Ok (is_not_None v).

Definition __len__ (self : table) : Z := _size self.

Definition items (self : table) : list entry := concat (_buckets self).

End Methods.

End HashTableSeparateChaining.

Module HT := HashTableSeparateChaining.

(** ** Question1.py: Product and the lookup passes of InventorySystem *)

(** [price] is a float in the source; it is only stored, never computed
    with, and is kept here as a rational. *)
Record Product := {
  sku : string;
  name : string;
  category : string;
  price : Q;
  stock : Z
}.

Module InventorySystem.

Record t := Build {
  table : HT.t Product;
  array : list Product
}.

Section Methods.
Variable hash : string → Z.

(** [insert_product]: the array is appended to only when the table accepted
    the key. *)
Definition insert_product (depth : nat) (self : t) (p : Product)
  : result (bool * t) :=
  r ← HT.insert hash depth (table self) (sku p) (PyObj p) false;
  if (r.1 : bool) then Ok (true, Build r.2 (array self ++ [p]))
  else Ok (false, Build r.2 (array self)).

(** The local function [linear_search] of [benchmark_search]. *)
Definition linear_search (self : t) (sku0 : string) : Any Product :=
  match list_find (λ p, sku p = sku0) (array self) with
  | Some (_, p) => PyObj p
  | None => PyNone
  end.

(** The two timed loops of [benchmark_search].  The source discards each
    result ([_ = ...]); the embedding collects them so that the two passes
    can be compared, and returns the system as the loop leaves it. *)
Definition hash_pass (self : t) (queries : list string)
  : result (list (Any Product) * t) :=
  for_each (λ acc q, v ← HT.get hash (table acc.2) q; Ok (acc.1 ++ [v], acc.2))
           queries ([], self).

Definition array_pass (self : t) (queries : list string)
  : result (list (Any Product) * t) :=
  for_each (λ acc q, Ok (acc.1 ++ [linear_search acc.2 q], acc.2))
           queries ([], self).

End Methods.

End InventorySystem.

Module IS := InventorySystem.

(** ** Question3.py: factorial *)

Definition factorial (n : Z) : result Z :=
  if (n <? 0)%Z then Raise ValueError
  else Ok (fold_left (λ result i, result * i)%Z (range 2 (n + 1)) 1%Z).

(** ** Invariants, histories and the abstract view of a table *)

Section Model.
Context {Obj : Type}.
Variable hash : string → Z.

(** The finite map a table stands for. *)
Definition model (self : HT.t Obj) : gmap string (Any Obj) :=
  list_to_map (HT.items self).

(** Representation invariant: the capacity floor, one bucket per slot, the
    size counter, every entry in the bucket of its hash, and no key twice in
    a bucket. *)
Record wf (self : HT.t Obj) : Prop := Wf {
  wf_capacity : (5 ≤ HT._capacity self)%Z;
  wf_length : Z.of_nat (length (HT._buckets self)) = HT._capacity self;
  wf_size : HT._size self = Z.of_nat (length (HT.items self));
  wf_home : ∀ j bucket e,
    HT._buckets self !! j = Some bucket → e ∈ bucket →
    (hash e.1 `mod` HT._capacity self)%Z = Z.of_nat j;
  wf_nodup : ∀ j bucket,
    HT._buckets self !! j = Some bucket → NoDup bucket.*1
}.

(** The slot of a key. *)
Definition home (self : HT.t Obj) (key : string) : nat :=
  Z.to_nat (hash key `mod` HT._capacity self).

(** Load factor at most 0.75, in integers. *)
Definition balanced (self : HT.t Obj) : Prop :=
  (4 * HT._size self ≤ 3 * HT._capacity self)%Z.

(** What a returning [insert] leaves behind, in terms of the model. *)
Definition insert_post (self : HT.t Obj) (key : string) (value : Any Obj)
    (allow_update ok : bool) (self' : HT.t Obj) : Prop :=
  let fresh := bool_decide (model self !! key = None) in
  wf self' ∧ balanced self' ∧
  ok = allow_update || fresh ∧
  model self' = (if ok then <[key:=value]> (model self) else model self) ∧
  (ok = false → self' = self) ∧
  HT._size self' = (HT._size self + if fresh then 1 else 0)%Z ∧
  HT._capacity self'
  = (if fresh && bool_decide (3 * HT._capacity self < 4 * (HT._size self + 1))
     then HT._capacity self * 2 + 1 else HT._capacity self)%Z.

(** A history of calls on one table. *)
Inductive op :=
  | Insert (key : string) (value : Any Obj) (allow_update : bool)
  | Delete (key : string).

Definition step (depth : nat) (self : HT.t Obj) (o : op) : result (HT.t Obj) :=
  match o with
  | Insert key value allow_update =>
      r ← HT.insert hash depth self key value allow_update; Ok r.2
  | Delete key =>
      r ← HT.delete hash self key; Ok r.2
  end.

Definition run (depth : nat) (capacity : Z) (ops : list op)
  : result (HT.t Obj) :=
  for_each (step depth) ops (HT.__init__ capacity).

(** A table is reachable when some history of inserts and deletes, started
    on a freshly constructed table, returns it. *)
Definition reachable (self : HT.t Obj) : Prop :=
  ∃ depth capacity ops, run depth capacity ops = Ok self.

(** The keys inserted and not deleted since, read off the history alone. *)
Definition live_keys (ops : list op) : gset string :=
  fold_left (λ s o, match o with
                    | Insert key _ _ => {[key]} ∪ s
                    | Delete key => s ∖ {[key]}
                    end) ops ∅.

(** "The key has no entry in the table." *)
Definition absent (self : HT.t Obj) (key : string) : Prop :=
  ∀ v, (key, v) ∉ HT.items self.

End Model.

(** The table and the array mirror each other: the table's entries are
    exactly the array's products under their SKUs, and no SKU occurs twice
    in the array. *)
Definition mirrored (self : IS.t) : Prop :=
  NoDup (sku <$> IS.array self) ∧
  ∀ k v, (k, v) ∈ HT.items (IS.table self) ↔
         ∃ p, p ∈ IS.array self ∧ k = sku p ∧ v = PyObj p.

(** A concrete hash function for the examples: the sum of the character
    codes. *)
Fixpoint toy_hash (s : string) : Z :=
  match s with
  | EmptyString => 0
  | String c rest => Z.of_nat (Ascii.nat_of_ascii c) + toy_hash rest
  end%Z.

(** ** Question1.py: InventorySystem with object identity

    [edit_product] mutates a [Product] object that the table and the array
    both refer to.  Here the objects live in a store indexed by references;
    the table and the array hold references, and a field is read through
    the store. *)

(** [sorted(l, key=...)] on string keys: a stable sort by the code-point
    order of the keys; bytewise order on UTF-8 strings is that order. *)
Fixpoint insert_sorted {A} (key : A → string) (x : A) (l : list A) : list A :=
  match l with
  | [] => [x]
  | y :: rest =>
      if String.leb (key x) (key y) then x :: y :: rest
      else y :: insert_sorted key x rest
  end.

Definition sorted {A} (key : A → string) (l : list A) : list A :=
  foldr (insert_sorted key) [] l.

(** Field assignments [p.name = ...], [p.category = ...], ... *)
Definition set_name (n : string) (p : Product) : Product :=
  {| sku := sku p; name := n; category := category p;
     price := price p; stock := stock p |}.

Definition set_category (c : string) (p : Product) : Product :=
  {| sku := sku p; name := name p; category := c;
     price := price p; stock := stock p |}.

Definition set_price (x : Q) (p : Product) : Product :=
  {| sku := sku p; name := name p; category := category p;
     price := x; stock := stock p |}.

Definition set_stock (n : Z) (p : Product) : Product :=
  {| sku := sku p; name := name p; category := category p;
     price := price p; stock := n |}.

(** [if x is not None: p.f = x] *)
Definition assign_if {A} (set : A → Product → Product) (x : option A)
    (p : Product) : Product :=
  match x with
  | Some a => set a p
  | None => p
  end.

(** The ten products of [_seed_data]. *)
Definition samples : list Product :=
  [ {| sku := "SKU-0001"; name := "Baby Diapers (M, 52 pcs)";
       category := "Diapers"; price := 4590 # 100; stock := 120 |};
    {| sku := "SKU-0002"; name := "Gentle Baby Wipes (80)";
       category := "Hygiene"; price := 950 # 100; stock := 300 |};
    {| sku := "SKU-0003"; name := "Infant Formula Stage 1 (900g)";
       category := "Nutrition"; price := 8900 # 100; stock := 40 |};
    {| sku := "SKU-0004"; name := "Glass Baby Bottle (240ml)";
       category := "Feeding"; price := 3500 # 100; stock := 75 |};
    {| sku := "SKU-0005"; name := "Silicone Pacifier (2-pack)";
       category := "Accessories"; price := 1800 # 100; stock := 150 |};
    {| sku := "SKU-0006"; name := "Organic Baby Lotion (200ml)";
       category := "Hygiene"; price := 2450 # 100; stock := 90 |};
    {| sku := "SKU-0007"; name := "Baby Shampoo (400ml)";
       category := "Hygiene"; price := 2190 # 100; stock := 110 |};
    {| sku := "SKU-0008"; name := "Stroller Rain Cover";
       category := "Travel"; price := 5900 # 100; stock := 25 |};
    {| sku := "SKU-0009"; name := "Convertible Car Seat";
       category := "Travel"; price := 39900 # 100; stock := 10 |};
    {| sku := "SKU-0010"; name := "Cotton Onesies (3-pack)";
       category := "Clothing"; price := 3990 # 100; stock := 80 |} ].

Module Inventory.

Definition ref := nat.

(** The object store ([heap], with [next] the first unused reference) and
    the two fields of an [InventorySystem]. *)
Record t := Build {
  heap : ref → Product;
  next : ref;
  table : HT.t ref;
  array : list ref
}.

(** What [list_products] returns or raises. *)
Inductive listing :=
  | Listed (products : list ref)
  | AttributeError.

(** What a conversion [float(x)] or [int(x)] does: it returns a number or
    raises. *)
Inductive conversion (E A : Type) :=
  | Converts (a : A)
  | Fails (e : E).
Arguments Converts {E A} a.
Arguments Fails {E A} e.

(** How [edit_product] ends once the product is found or not: it returns,
    or the exception of a conversion propagates to the caller. *)
Inductive ending (E : Type) :=
  | Returns (b : bool)
  | Propagates (e : E).
Arguments Returns {E} b.
Arguments Propagates {E} e.

(** The object behind a value of the table, if it is not [None]. *)
Definition object (v : Any ref) : option ref :=
  match v with
  | PyObj r => Some r
  | PyNone => None
  end.

Section Methods.
Variable hash : string → Z.

(** [Product(...)]: a new object. *)
Definition new_Product (self : t) (p : Product) : ref * t :=
  (next self,
   Build (λ r, if decide (r = next self) then p else heap self r)
         (S (next self)) (table self) (array self)).

(** [samples = [Product(...), ...]] *)
Definition new_Products (self : t) (ps : list Product) : list ref * t :=
  foldl (λ acc p, let r := new_Product acc.2 p in (acc.1 ++ [r.1], r.2))
        ([], self) ps.

(** The loop of [_seed_data]: the table is updated if the SKU is there
    already, and the array is appended to in any case. *)
Definition _seed_data (depth : nat) (self : t) : result t :=
  let refs := new_Products self samples in
  for_each (λ s p,
              r ← HT.insert hash depth (table s) (sku (heap s p)) (PyObj p) true;
              Ok (Build (heap s) (next s) r.2 (array s ++ [p])))
           refs.1 refs.2.

(** [InventorySystem(capacity)], run on a given object store. *)
Definition __init__ (depth : nat) (heap0 : ref → Product) (next0 : ref)
    (capacity : Z) : result t :=
  _seed_data depth (Build heap0 next0 (HT.__init__ capacity) []).

Definition insert_product (depth : nat) (self : t) (p : ref)
  : result (bool * t) :=
  r ← HT.insert hash depth (table self) (sku (heap self p)) (PyObj p) false;
  if (r.1 : bool) then
    Ok (true, Build (heap self) (next self) r.2 (array self ++ [p]))
  else Ok (false, Build (heap self) (next self) r.2 (array self)).

Definition search_by_sku (self : t) (sku0 : string) : result (Any ref) :=
  HT.get hash (table self) sku0.

(** [edit_product] converts its [price] and [stock] arguments with
    [float] and [int].  The arguments are of any type [Arg]; the two
    conversions are parameters: each returns a number ([float] the float as
    the rational it denotes, rounded as the source rounds it) or raises an
    exception of type [E].  [Arg] ranges over the arguments that [float]
    converts to a finite float or rejects: an infinite or NaN price has no
    counterpart in [price]. *)
Context {Arg E : Type}.
Variable float : Arg → conversion E Q.
Variable int : Arg → conversion E Z.

(** [if stock is not None: p.stock = int(stock)] *)
Definition assign_stock (stock : option Arg) (o : Product)
  : Product * option E :=
  match stock with
  | None => (o, None)
  | Some y =>
      match int y with
      | Converts n => (set_stock n o, None)
      | Fails e => (o, Some e)
      end
  end.

(** The four conditional assignments, in the order of the source.  An
    exception stops them; the object keeps the assignments made before. *)
Definition edit_fields (name category : option string)
    (price stock : option Arg) (o : Product) : Product * option E :=
  let o1 := assign_if set_category category (assign_if set_name name o) in
  match price with
  | None => assign_stock stock o1
  | Some x =>
      match float x with
      | Converts q => assign_stock stock (set_price q o1)
      | Fails e => (o1, Some e)
      end
  end.

(** [if not p: return False]: a [Product] object is always true, [None]
    is false.  The object is changed in place, also when a conversion
    raises. *)
Definition edit_product (self : t) (sku0 : string)
    (name category : option string) (price stock : option Arg)
  : result (ending E * t) :=
  p ← HT.get hash (table self) sku0;
  match p with
  | PyNone => Ok (Returns false, self)
  | PyObj r =>
      let oe := edit_fields name category price stock (heap self r) in
      Ok (match oe.2 with
          | None => Returns true
          | Some e => Propagates e
          end,
          Build (λ r', if decide (r' = r) then oe.1 else heap self r')
                (next self) (table self) (array self))
  end.

Definition delete_product (self : t) (sku0 : string) : result (bool * t) :=
  p ← HT.get hash (table self) sku0;
  match p with
  | PyNone => Ok (false, self)
  | PyObj _ =>
      r ← HT.delete hash (table self) sku0;
      let array' :=
        match list_find (λ item, sku (heap self item) = sku0) (array self) with
        | Some (i, _) => base.delete i (array self)
        | None => array self
        end in
      Ok (true, Build (heap self) (next self) r.2 array')
  end.

(** [sorted((v for _, v in self.table.items()), key=lambda p: p.sku)]: the
    key function raises [AttributeError] on a [None] value. *)
Definition list_products (self : t) : listing :=
  let values := (HT.items (table self)).*2 in
  if forallb is_not_None values then
    Listed (sorted (λ r, sku (heap self r)) (omap object values))
  else AttributeError.

End Methods.

End Inventory.

(** The table and the array of an inventory agree: the table is reachable,
    its entries are exactly the array's objects under their SKUs, and no SKU
    occurs twice in the array. *)
Definition consistent (hash : string → Z) (self : Inventory.t) : Prop :=
  reachable hash (Inventory.table self) ∧
  NoDup ((λ r, sku (Inventory.heap self r)) <$> Inventory.array self) ∧
  ∀ k v, (k, v) ∈ HT.items (Inventory.table self) ↔
         ∃ r, r ∈ Inventory.array self ∧
              k = sku (Inventory.heap self r) ∧ v = PyObj r.

(** ** Question2.py: DirectedGraph

    [self.graph] is a dict from vertices to sets of vertices.  A dict keeps
    its keys in insertion order, so it is a list of pairs here; a set has no
    order of its own, so it is a [gset], and [list(set)] is [elements], some
    fixed listing of which only the members matter.  [None] stands for the
    [KeyError] of [self.graph[v]]. *)

Module DirectedGraph.

Section Methods.
Context `{Countable V}.

Definition t : Type := list (V * gset V).

Definition __init__ : t := [].

(** [v in self.graph] *)
Definition has_key (graph : t) (v : V) : bool :=
  bool_decide (v ∈ graph.*1).

(** [self.graph[v]] *)
Definition getitem (graph : t) (v : V) : option (gset V) :=
  (λ r, r.2.2) <$> list_find (λ e, e.1 = v) graph.

(** [self.graph[v] = s]: an existing key keeps its place, a new key goes
    to the end.  Changing the set [self.graph[v]] in place is the same
    update. *)
Definition setitem (graph : t) (v : V) (s : gset V) : t :=
  match list_find (λ e, e.1 = v) graph with
  | Some (i, _) => <[i:=(v, s)]> graph
  | None => graph ++ [(v, s)]
  end.

Definition addVertex (graph : t) (v : V) : t :=
  if has_key graph v then graph else setitem graph v ∅.

Definition addEdge (graph : t) (src dst : V) : option t :=
  let graph1 := if has_key graph src then graph else addVertex graph src in
  let graph2 := if has_key graph1 dst then graph1 else addVertex graph1 dst in
  s ← getitem graph2 src;
  Some (setitem graph2 src (s ∪ {[dst]})).

Definition removeEdge (graph : t) (src dst : V) : option (bool * t) :=
  if has_key graph src then
    s ← getitem graph src;
    if bool_decide (dst ∈ s) then Some (true, setitem graph src (s ∖ {[dst]}))
    else Some (false, graph)
  else Some (false, graph).

(** [list(self.graph.get(v, []))] *)
Definition listOutgoingAdjacentVertex (graph : t) (v : V) : list V :=
  match getitem graph v with
  | Some s => elements s
  | None => []
  end.

Definition listIncomingVertices (graph : t) (v : V) : list V :=
  (filter (λ e, v ∈ e.2) graph).*1.

Definition listVertices (graph : t) : list V := graph.*1.

Definition hasEdge (graph : t) (src dst : V) : option bool :=
  if has_key graph src then
    s ← getitem graph src; Some (bool_decide (dst ∈ s))
  else Some false.

End Methods.

End DirectedGraph.

Module DG := DirectedGraph.

(** A dict has each key once. *)
Definition is_dict `{Countable V} (graph : DG.t (V:=V)) : Prop :=
  NoDup graph.*1.

(** Every vertex that is followed is itself a vertex of the graph. *)
Definition closed `{Countable V} (graph : DG.t (V:=V)) : Prop :=
  ∀ v s w, (v, s) ∈ graph → w ∈ s → w ∈ graph.*1.

(** ** Question2.py: the graph methods of SlowGramApp *)

Module SlowGramApp.

Section Methods.
Context `{Countable V}.

(** [people] is a list of [Person] objects, [mygraph] a graph over them;
    [V] is the type of the objects. *)
Record t := Build {
  mygraph : DG.t (V:=V);
  people : list V;
  enforce_privacy : bool
}.

Definition __init__ : t := Build DG.__init__ [] false.

Definition add_person (self : t) (person : V) : t :=
  Build (DG.addVertex (mygraph self) person) (people self ++ [person])
        (enforce_privacy self).

Definition add_follow (self : t) (follower followed : V) : option t :=
  g ← DG.addEdge (mygraph self) follower followed;
  Some (Build g (people self) (enforce_privacy self)).

Definition unfollow (self : t) (follower followed : V) : option (bool * t) :=
  r ← DG.removeEdge (mygraph self) follower followed;
  Some (r.1, Build r.2 (people self) (enforce_privacy self)).

End Methods.

End SlowGramApp.

(** ** Sample data for the examples *)

Definition diapers : Product :=
  {| sku := "SKU-0001"; name := "Baby Diapers (M, 52 pcs)";
     category := "Diapers"; price := 459 # 10; stock := 120 |}.

Definition wipes : Product :=
  {| sku := "SKU-0002"; name := "Gentle Baby Wipes (80)";
     category := "Hygiene"; price := 95 # 10; stock := 300 |}.

(** [HashTableSeparateChaining(5)] after [insert("a", 1)]. *)
Definition table_a : HT.t Z :=
  HT.Build 5 [[]; []; [("a", PyObj 1%Z)]; []; []] 1.

(** [HashTableSeparateChaining(5)] after [insert("a", None)]. *)
Definition table_a_None : HT.t Z :=
  HT.Build 5 [[]; []; [("a", PyNone)]; []; []] 1.

(** ... after inserting "a", "b" and "c". *)
Definition table_abc : HT.t Z :=
  HT.Build 5 [[]; []; [("a", PyObj 1%Z)]; [("b", PyObj 2%Z)]; [("c", PyObj 3%Z)]] 3.

(** ... and after inserting "d" as well, which resizes to 11 buckets. *)
Definition table_abcd : HT.t Z :=
  HT.Build 11 [[("c", PyObj 3%Z)]; [("d", PyObj 4%Z)]; []; []; []; []; []; [];
               []; [("a", PyObj 1%Z)]; [("b", PyObj 2%Z)]] 4.

Definition abc_ops : list (op (Obj:=Z)) :=
  [Insert "a" (PyObj 1%Z) true; Insert "b" (PyObj 2%Z) true;
   Insert "c" (PyObj 3%Z) false].

(** An inventory of two products, as [insert_product] builds it. *)
Definition shop : IS.t :=
  IS.Build (HT.Build 5 [[]; [("SKU-0001", PyObj diapers)];
                        [("SKU-0002", PyObj wipes)]; []; []] 2)
           [diapers; wipes].

(** [table_abc] after [delete("b")]. *)
Definition table_ac : HT.t Z :=
  HT.Build 5 [[]; []; [("a", PyObj 1%Z)]; []; [("c", PyObj 3%Z)]] 2.

(** An inventory over a store with two objects, 0 and 1. *)
Definition ref_shop : Inventory.t :=
  Inventory.Build (λ r, if decide (r = 0) then diapers else wipes) 2
    (HT.Build 5 [[]; [("SKU-0001", PyObj 0)]; [("SKU-0002", PyObj 1)]; []; []] 2)
    [0; 1].

(** Two arguments for the examples: a finite float, and the string
    'abc', which neither [float] nor [int] accepts. *)
Inductive sample_arg :=
  | AFloat (x : Q)
  | AText.

(** [float(x)] of a float is that float; [float('abc')] raises
    [ValueError]. *)
Definition sample_float (a : sample_arg) : Inventory.conversion exn Q :=
  match a with
  | AFloat x => Inventory.Converts x
  | AText => Inventory.Fails ValueError
  end.

(** [int(x)] of a finite float truncates towards zero; [int('abc')]
    raises [ValueError]. *)
Definition sample_int (a : sample_arg) : Inventory.conversion exn Z :=
  match a with
  | AFloat x => Inventory.Converts (Z.quot (Qnum x) (Z.pos (Qden x)))
  | AText => Inventory.Fails ValueError
  end.

(** The graph after [addEdge(1, 2)], then after [addEdge(2, 3)], and the
    first one after [removeEdge(1, 2)]. *)
Definition graph_12 : DG.t (V:=nat) := [(1, {[2]}); (2, ∅)].

Definition graph_123 : DG.t (V:=nat) := [(1, {[2]}); (2, {[3]}); (3, ∅)].

Definition graph_12_cut : DG.t (V:=nat) := [(1, ∅); (2, ∅)].

(** * Proofs *)

(** ** The result monad and loops *)

Lemma bind_Ok {A B} (m : result A) (f : A → result B) (b : B) :
  m ≫= f = Ok b ↔ ∃ a, m = Ok a ∧ f a = Ok b.
Proof.
  destruct m as [a|e]; simpl; split.
  - intros H. by exists a.
  - by intros (a' & [= <-] & H).
  - discriminate.
  - by intros (a' & ? & _).
Qed.

Lemma for_each_app {A S} (body : S → A → result S) l1 l2 s :
  for_each body (l1 ++ l2) s = for_each body l1 s ≫= for_each body l2.
Proof.
  revert s. induction l1 as [|x l1 IH]; intros s; simpl; [done|].
  destruct (body s x) as [s'|e]; simpl; [apply IH | done].
Qed.

Lemma for_each_impl {A S} (body1 body2 : S → A → result S) l s r :
  (∀ s x r, body1 s x = Ok r → body2 s x = Ok r) →
  for_each body1 l s = Ok r → for_each body2 l s = Ok r.
Proof.
  intros Hb. revert s. induction l as [|x l IH]; intros s; simpl; [done|].
  intros (s' & H1 & H2)%bind_Ok. rewrite (Hb _ _ _ H1). simpl. by apply IH.
Qed.

(** ** Lists of buckets *)

Lemma concat_insert_length {A} (bs : list (list A)) j b b' :
  bs !! j = Some b →
  length (concat (<[j:=b']> bs)) + length b = length (concat bs) + length b'.
Proof.
  intros Hj. pose proof (lookup_lt_Some _ _ _ Hj) as Hlt.
  rewrite insert_take_drop by done.
  rewrite <-(take_drop_middle bs j b Hj) at 3.
  rewrite !concat_app. simpl. rewrite !length_app. lia.
Qed.

Lemma elem_of_concat_lookup {A} (bs : list (list A)) (x : A) :
  x ∈ concat bs ↔ ∃ j b, bs !! j = Some b ∧ x ∈ b.
Proof.
  rewrite list_elem_of_In, in_concat. split.
  - intros (b & (j & Hj)%list_elem_of_In%list_elem_of_lookup & Hx%list_elem_of_In).
    eauto.
  - intros (j & b & Hj & Hx). exists b. rewrite <-!list_elem_of_In.
    split; [|done]. apply list_elem_of_lookup. eauto.
Qed.

Lemma NoDup_concat_keys {A B} (bs : list (list (A * B))) :
  (∀ j b, bs !! j = Some b → NoDup b.*1) →
  (∀ i j bi bj ei ej, bs !! i = Some bi → bs !! j = Some bj →
     ei ∈ bi → ej ∈ bj → ei.1 = ej.1 → i = j) →
  NoDup (concat bs).*1.
Proof.
  induction bs as [|b bs IH]; intros Hnd Hdisj; simpl; [constructor|].
  rewrite fmap_app. apply NoDup_app. split_and!.
  - by apply (Hnd 0).
  - intros k (ei & -> & Hei)%list_elem_of_fmap (ej & Hk & Hej)%list_elem_of_fmap.
    apply elem_of_concat_lookup in Hej as (j & bj & Hj & Hej).
    by specialize (Hdisj 0 (S j) b bj ei ej eq_refl Hj Hei Hej Hk).
  - apply IH.
    + intros j bj Hj. by apply (Hnd (S j)).
    + intros i j bi bj ei ej Hi Hj Hei Hej Hk.
      by specialize (Hdisj (S i) (S j) bi bj ei ej Hi Hj Hei Hej Hk) as [= ->].
Qed.

Lemma list_to_map_lookup_scan {Obj} (b : list (string * Any Obj)) k :
  (list_to_map b : gmap string (Any Obj)) !! k = (λ r, r.2.2) <$> HT.scan k b.
Proof.
  unfold HT.scan. induction b as [|[k' v] b IH]; simpl; [done|].
  rewrite lookup_insert. case_decide as Hk; simpl in *; [done|].
  rewrite IH. by destruct (list_find _ b) as [[]|].
Qed.

Lemma lookup_concat_home {Obj} (bs : list (list (string * Any Obj))) j b k :
  bs !! j = Some b →
  (∀ i b' e, bs !! i = Some b' → e ∈ b' → e.1 = k → i = j) →
  (list_to_map (concat bs) : gmap string (Any Obj)) !! k
  = (list_to_map b : gmap string (Any Obj)) !! k.
Proof.
  intros Hj Hhome.
  assert (∀ l : list (list (string * Any Obj)),
            (∀ b', b' ∈ l → ∀ e, e ∈ b' → e.1 ≠ k) →
            (list_to_map (concat l) : gmap string (Any Obj)) !! k = None) as Hnone.
  { intros l Hl. apply not_elem_of_list_to_map_1.
    intros (e & -> & He)%list_elem_of_fmap.
    apply elem_of_concat_lookup in He as (i & b' & Hi & He).
    eapply Hl; [|done..]. apply list_elem_of_lookup. eauto. }
  replace (concat bs) with (concat (take j bs ++ b :: drop (S j) bs))
    by (by rewrite take_drop_middle).
  rewrite concat_app. simpl. rewrite !list_to_map_app, !lookup_union.
  rewrite !Hnone.
  - by destruct (list_to_map b !! k).
  - intros b' (i & Hi)%list_elem_of_lookup e He Hk.
    rewrite lookup_drop in Hi. specialize (Hhome _ _ _ Hi He Hk). lia.
  - intros b' (i & Hi)%list_elem_of_lookup e He Hk.
    apply lookup_take_Some in Hi as [Hi Hlt].
    specialize (Hhome _ _ _ Hi He Hk). lia.
Qed.

(** ** One bucket *)

Section Buckets.
Context {Obj : Type}.
Implicit Types (b : list (string * Any Obj)) (k : string) (v : Any Obj).

Lemma scan_Some k b i e :
  HT.scan k b = Some (i, e) → b !! i = Some e ∧ e.1 = k.
Proof. unfold HT.scan. intros (? & ? & _)%list_find_Some. done. Qed.

Lemma scan_None k b : HT.scan k b = None → k ∉ b.*1.
Proof.
  unfold HT.scan. intros Hnone%list_find_None (e & -> & He)%list_elem_of_fmap.
  rewrite Forall_forall in Hnone. by apply (Hnone e).
Qed.

Lemma keys_update b i k v0 v :
  b !! i = Some (k, v0) → (<[i:=(k, v)]> b).*1 = b.*1.
Proof.
  intros Hi. rewrite list_fmap_insert. simpl.
  apply list_insert_id. by rewrite list_lookup_fmap, Hi.
Qed.

Lemma to_map_update b i k v0 v :
  NoDup b.*1 → b !! i = Some (k, v0) →
  (list_to_map (<[i:=(k, v)]> b) : gmap string (Any Obj))
  = <[k:=v]> (list_to_map b).
Proof.
  revert i. induction b as [|[k1 v1] b IH]; intros i Hnd Hi; [done|].
  apply NoDup_cons in Hnd as [Hk1 Hnd]. destruct i as [|i]; simpl in *.
  - simplify_eq. by rewrite insert_insert_eq.
  - rewrite (IH i) by done. apply insert_insert_ne. intros ?; subst.
    apply Hk1, list_elem_of_fmap. eexists (_, v0).
    split; [done|]. by eapply list_elem_of_lookup_2.
Qed.

Lemma to_map_delete b i k v0 :
  NoDup b.*1 → b !! i = Some (k, v0) →
  (list_to_map (base.delete i b) : gmap string (Any Obj))
  = base.delete k (list_to_map b).
Proof.
  revert i. induction b as [|[k1 v1] b IH]; intros i Hnd Hi; [done|].
  apply NoDup_cons in Hnd as [Hk1 Hnd]. destruct i as [|i]; simpl in *.
  - simplify_eq. rewrite delete_insert_eq.
    symmetry. apply delete_id. by apply not_elem_of_list_to_map_1.
  - rewrite (IH i) by done. rewrite delete_insert_ne; [done|]. intros ?; subst.
    apply Hk1, list_elem_of_fmap. eexists (_, v0).
    split; [done|]. by eapply list_elem_of_lookup_2.
Qed.

Lemma keys_delete b i : (base.delete i b).*1 = base.delete i b.*1.
Proof.
  revert i. induction b as [|e b IH]; intros [|i]; simpl; [done..|].
  f_equal. apply IH.
Qed.

Lemma elem_of_update b i e e' : e' ∈ <[i:=e]> b → e' = e ∨ e' ∈ b.
Proof.
  intros (j & Hj)%list_elem_of_lookup.
  apply list_lookup_insert_Some in Hj as [(_ & -> & _)|[_ Hj]]; [by left|].
  right. by eapply list_elem_of_lookup_2.
Qed.

End Buckets.

(** ** The table under its invariant *)

Section Table.
Context {Obj : Type} (hash : string → Z).
Implicit Types (self : HT.t Obj) (key k : string) (value v : Any Obj).

Lemma should_resize_spec self :
  (0 < HT._capacity self)%Z →
  HT._should_resize self
  = Ok (bool_decide (3 * HT._capacity self < 4 * HT._size self)%Z).
Proof.
  intros Hc. unfold HT._should_resize, HT.load_factor.
  destruct (Z.eqb_spec (HT._capacity self) 0) as [?|_]; [lia|]. simpl. f_equal.
  destruct (HT._capacity self) as [|p|p]; try lia.
  unfold Qle_bool, Qdiv, Qmult, Qinv, inject_Z. simpl.
  rewrite Pos.mul_1_l.
  destruct (Z.leb_spec (HT._size self * 1 * 4) (3 * Z.pos p)); simpl.
  - by rewrite bool_decide_eq_false_2 by lia.
  - by rewrite bool_decide_eq_true_2 by lia.
Qed.

Lemma bucket_wf self key :
  wf hash self →
  ∃ b, HT._buckets self !! home hash self key = Some b ∧
       HT._bucket hash self key = Ok (home hash self key, b).
Proof.
  intros [Hc Hl _ _ _]. unfold HT._bucket, HT._index, home.
  destruct (Z.eqb_spec (HT._capacity self) 0) as [?|_]; [lia|]. simpl.
  pose proof (Z.mod_pos_bound (hash key) (HT._capacity self) ltac:(lia)) as Hm.
  unfold py_index.
  destruct (Z.ltb_spec (hash key `mod` HT._capacity self) 0) as [?|_]; [lia|].
  destruct (Z.leb_spec 0 (hash key `mod` HT._capacity self)); [|lia].
  destruct (Z.ltb_spec (hash key `mod` HT._capacity self)
                       (Z.of_nat (length (HT._buckets self)))); [|lia].
  simpl.
  destruct (lookup_lt_is_Some_2 (HT._buckets self)
              (Z.to_nat (hash key `mod` HT._capacity self))) as [b Hb]; [lia|].
  exists b. by rewrite Hb.
Qed.

Lemma model_lookup self key b :
  wf hash self → HT._buckets self !! home hash self key = Some b →
  model self !! key = (list_to_map b : gmap string (Any Obj)) !! key.
Proof.
  intros Hwf Hb. unfold model, HT.items.
  apply (lookup_concat_home _ (home hash self key)); [done|].
  intros i b' e Hi He <-. unfold home.
  rewrite (wf_home _ _ Hwf _ _ _ Hi He). lia.
Qed.

Lemma wf_items_NoDup self : wf hash self → NoDup (HT.items self).*1.
Proof.
  intros Hwf. apply NoDup_concat_keys.
  - apply (wf_nodup _ _ Hwf).
  - intros i j bi bj ei ej Hi Hj Hei Hej Hk.
    pose proof (wf_home _ _ Hwf _ _ _ Hi Hei) as H1.
    pose proof (wf_home _ _ Hwf _ _ _ Hj Hej) as H2.
    rewrite Hk in H1. lia.
Qed.

Lemma elem_of_items_model self k v :
  wf hash self → (k, v) ∈ HT.items self ↔ model self !! k = Some v.
Proof. intros Hwf. apply elem_of_list_to_map. by apply wf_items_NoDup. Qed.

Lemma wf_size_model self :
  wf hash self → HT._size self = Z.of_nat (size (model self)).
Proof.
  intros Hwf. unfold model. rewrite map_size_list_to_map.
  - apply (wf_size _ _ Hwf).
  - by apply wf_items_NoDup.
Qed.

Lemma absent_model self k : wf hash self → absent self k ↔ model self !! k = None.
Proof.
  intros Hwf. unfold absent. rewrite eq_None_not_Some. split.
  - intros Ha [v Hv%elem_of_items_model]; [|done]. by apply (Ha v).
  - intros Hn v Hv%elem_of_items_model; [|done]. apply Hn. eauto.
Qed.

Lemma wf_set_bucket self j b b' sz :
  wf hash self → HT._buckets self !! j = Some b →
  NoDup b'.*1 →
  (∀ e, e ∈ b' → (hash e.1 `mod` HT._capacity self)%Z = Z.of_nat j) →
  (sz + Z.of_nat (length b) = HT._size self + Z.of_nat (length b'))%Z →
  wf hash (HT.Build (HT._capacity self) (<[j:=b']> (HT._buckets self)) sz).
Proof.
  intros [Hc Hl Hs Hh Hn] Hj Hnd Hhome Hsz. split; simpl.
  - done.
  - by rewrite length_insert.
  - unfold HT.items in *. simpl.
    pose proof (concat_insert_length _ _ _ b' Hj). lia.
  - intros i bi e Hi He.
    apply list_lookup_insert_Some in Hi as [(-> & <- & _)|[Hne Hi]]; eauto.
  - intros i bi Hi.
    apply list_lookup_insert_Some in Hi as [(-> & <- & _)|[Hne Hi]]; eauto.
Qed.

(** Replacing the bucket of [k] acts on the model as it acts on that
    bucket, for every change [f] that touches the key [k] only. *)
Lemma model_set_bucket self k b b' sz (f : gmap string (Any Obj) → gmap string (Any Obj)) :
  let self' := HT.Build (HT._capacity self)
                        (<[home hash self k:=b']> (HT._buckets self)) sz in
  wf hash self → wf hash self' →
  HT._buckets self !! home hash self k = Some b →
  list_to_map b' = f (list_to_map b) →
  (∀ m k', k' ≠ k → f m !! k' = m !! k') →
  (∀ m m', m !! k = m' !! k → f m !! k = f m' !! k) →
  model self' = f (model self).
Proof.
  intros self' Hwf Hwf' Hb Hf Hother Hsame. apply map_eq. intros k'.
  pose proof (lookup_lt_Some _ _ _ Hb) as Hlt.
  assert (HT._buckets self' !! home hash self k = Some b') as Hb'
    by (by apply list_lookup_insert_eq).
  destruct (decide (k' = k)) as [->|Hne].
  - rewrite (model_lookup self' k b' Hwf' Hb'), Hf.
    apply Hsame. symmetry. by apply model_lookup.
  - rewrite Hother by done.
    destruct (bucket_wf self k' Hwf) as (c & Hc & _).
    destruct (decide (home hash self k' = home hash self k)) as [Heq|Hnh].
    + rewrite Heq in Hc. simplify_eq.
      assert (HT._buckets self' !! home hash self' k' = Some b') as Hb''.
      { change (home hash self' k') with (home hash self k'). by rewrite Heq. }
      rewrite (model_lookup self' k' b' Hwf' Hb''), Hf, Hother by done.
      symmetry. apply model_lookup; [done|]. by rewrite Heq.
    + assert (HT._buckets self' !! home hash self' k' = Some c) as Hc'.
      { change (home hash self' k') with (home hash self k').
        subst self'. simpl. by rewrite list_lookup_insert_ne. }
      by rewrite (model_lookup self' k' c Hwf' Hc'), (model_lookup self k' c Hwf Hc).
Qed.

Lemma home_of_nat self key :
  wf hash self →
  (hash key `mod` HT._capacity self)%Z = Z.of_nat (home hash self key).
Proof.
  intros Hwf. pose proof (wf_capacity _ _ Hwf).
  pose proof (Z.mod_pos_bound (hash key) (HT._capacity self) ltac:(lia)).
  unfold home. lia.
Qed.

Lemma get_spec self key :
  wf hash self →
  HT.get hash self key = Ok (default PyNone (model self !! key)).
Proof.
  intros Hwf. destruct (bucket_wf self key Hwf) as (b & Hb & Hbk).
  unfold HT.get. rewrite Hbk. simpl.
  rewrite (model_lookup self key b Hwf Hb), list_to_map_lookup_scan.
  by destruct (HT.scan key b) as [[i [k v]]|].
Qed.

Lemma contains_spec self key :
  wf hash self →
  HT.contains hash self key
  = Ok (is_not_None (default PyNone (model self !! key))).
Proof. intros Hwf. unfold HT.contains. by rewrite get_spec. Qed.

(** The bucket after [bucket.append((key, value))]. *)
Lemma append_spec self key value b :
  let self1 := HT.Build (HT._capacity self)
                 (<[home hash self key:=b ++ [(key, value)]]> (HT._buckets self))
                 (HT._size self + 1) in
  wf hash self → HT._buckets self !! home hash self key = Some b →
  HT.scan key b = None →
  wf hash self1 ∧ model self1 = <[key:=value]> (model self).
Proof.
  intros self1 Hwf Hb Hscan%scan_None.
  assert (wf hash self1) as Hwf1.
  { eapply wf_set_bucket; [done..| | |].
    - rewrite fmap_app. apply NoDup_app. split_and!.
      + apply (wf_nodup _ _ Hwf _ _ Hb).
      + by intros k Hk ->%list_elem_of_singleton.
      + apply NoDup_singleton.
    - intros e [He| ->%list_elem_of_singleton]%elem_of_app.
      + by apply (wf_home _ _ Hwf _ _ _ Hb).
      + by apply home_of_nat.
    - rewrite length_app. simpl. lia. }
  split; [done|].
  apply (model_set_bucket self key b _ _ (<[key:=value]>)); try done.
  - by apply list_to_map_snoc.
  - intros m k' Hne. by rewrite lookup_insert_ne.
  - intros m m' _. by rewrite !lookup_insert_eq.
Qed.

(** The bucket after [bucket[i] = (key, value)]. *)
Lemma update_spec self key value b i e :
  let self1 := HT.Build (HT._capacity self)
                 (<[home hash self key:=<[i:=(key, value)]> b]> (HT._buckets self))
                 (HT._size self) in
  wf hash self → HT._buckets self !! home hash self key = Some b →
  HT.scan key b = Some (i, e) →
  wf hash self1 ∧ model self1 = <[key:=value]> (model self).
Proof.
  intros self1 Hwf Hb [Hi Hk]%scan_Some. destruct e as [k0 v0]. simpl in Hk. subst k0.
  assert (wf hash self1) as Hwf1.
  { eapply wf_set_bucket; [done..| | |].
    - rewrite (keys_update _ _ _ v0) by done. apply (wf_nodup _ _ Hwf _ _ Hb).
    - intros e [->|He]%elem_of_update.
      + by apply home_of_nat.
      + by apply (wf_home _ _ Hwf _ _ _ Hb).
    - rewrite length_insert. lia. }
  split; [done|].
  apply (model_set_bucket self key b _ _ (<[key:=value]>)); try done.
  - eapply to_map_update; [apply (wf_nodup _ _ Hwf _ _ Hb) | done].
  - intros m k' Hne. by rewrite lookup_insert_ne.
  - intros m m' _. by rewrite !lookup_insert_eq.
Qed.

Lemma delete_spec self key :
  wf hash self →
  ∃ self',
    HT.delete hash self key
    = Ok (bool_decide (is_Some (model self !! key)), self') ∧
    wf hash self' ∧
    model self' = base.delete key (model self) ∧
    HT._capacity self' = HT._capacity self ∧
    HT._size self'
    = (HT._size self - if bool_decide (is_Some (model self !! key)) then 1 else 0)%Z ∧
    (model self !! key = None → self' = self).
Proof.
  intros Hwf. destruct (bucket_wf self key Hwf) as (b & Hb & Hbk).
  unfold HT.delete. rewrite Hbk. simpl.
  pose proof (model_lookup self key b Hwf Hb) as Hm.
  rewrite list_to_map_lookup_scan in Hm.
  destruct (HT.scan key b) as [[i [k0 v0]]|] eqn:Hscan; simpl in Hm.
  - apply scan_Some in Hscan as [Hi Hk]. simpl in Hk. subst k0.
    rewrite Hm, bool_decide_eq_true_2 by eauto.
    eexists. split; [done|].
    assert (wf hash (HT.Build (HT._capacity self)
                       (<[home hash self key:=base.delete i b]> (HT._buckets self))
                       (HT._size self - 1))) as Hwf1.
    { eapply wf_set_bucket; [done..| | |].
      - rewrite keys_delete. eapply sublist_NoDup; [|apply sublist_delete].
        apply (wf_nodup _ _ Hwf _ _ Hb).
      - intros e He%list_elem_of_delete_inv. by apply (wf_home _ _ Hwf _ _ _ Hb).
      - rewrite length_delete by eauto.
        pose proof (lookup_lt_Some _ _ _ Hi). lia. }
    split_and!; try done.
    apply (model_set_bucket self key b _ _ (base.delete key)); try done.
    + eapply to_map_delete; [apply (wf_nodup _ _ Hwf _ _ Hb) | done].
    + intros m k' Hne. by rewrite lookup_delete_ne.
    + intros m m' _. by rewrite !lookup_delete_eq.
  - rewrite Hm, bool_decide_eq_false_2 by (by intros [? ?]).
    exists self. split_and!; try done.
    + by rewrite delete_id.
    + lia.
Qed.

(** One unfolding of [insert]. *)
Lemma insert_S d self key value allow_update :
  HT.insert hash (S d) self key value allow_update
  = HT._bucket hash self key ≫= λ '(j, bucket),
      match HT.scan key bucket with
      | Some (i, _) =>
          if allow_update then
            Ok (true, HT.Build (HT._capacity self)
                        (<[j:=<[i:=(key, value)]> bucket]> (HT._buckets self))
                        (HT._size self))
          else Ok (false, self)
      | None =>
          let self1 := HT.Build (HT._capacity self)
                         (<[j:=bucket ++ [(key, value)]]> (HT._buckets self))
                         (HT._size self + 1) in
          HT._should_resize self1 ≫= λ grow : bool,
            if grow then
              HT._resize hash d self1 (HT._capacity self1 * 2 + 1) ≫= λ self2,
                Ok (true, self2)
            else Ok (true, self1)
      end.
Proof. reflexivity. Qed.

Lemma resize_unfold d self new_capacity :
  HT._resize hash d self new_capacity
  = for_each (λ self' e, HT.insert hash d self' e.1 e.2 true ≫= λ r, Ok r.2)
             (HT.items self)
             (HT.__init__ new_capacity).
Proof. reflexivity. Qed.

(** More depth never changes a result. *)
Lemma insert_depth_S d self key value allow_update r :
  HT.insert hash d self key value allow_update = Ok r →
  HT.insert hash (S d) self key value allow_update = Ok r.
Proof.
  revert self key value allow_update r.
  induction d as [|d IH]; intros self key value au r H; [done|].
  rewrite insert_S in H. rewrite insert_S.
  destruct (HT._bucket hash self key) as [[j b]|]; simpl in H |- *; [|done].
  destruct (HT.scan key b) as [[i e]|]; [done|].
  destruct (HT._should_resize _) as [[|]|]; simpl in H |- *; [|done..].
  apply bind_Ok in H as (self2 & Hres & Hok).
  rewrite resize_unfold in Hres |- *.
  erewrite for_each_impl; [done| |exact Hres].
  intros s x r' (r1 & H1 & H2)%bind_Ok. by rewrite (IH _ _ _ _ _ H1).
Qed.

Lemma insert_depth_le d d' self key value allow_update r :
  d ≤ d' →
  HT.insert hash d self key value allow_update = Ok r →
  HT.insert hash d' self key value allow_update = Ok r.
Proof. induction 1; auto using insert_depth_S. Qed.

Lemma insert_present d self key value v0 :
  wf hash self → model self !! key = Some v0 →
  HT.insert hash (S d) self key value false = Ok (false, self) ∧
  ∃ self',
    HT.insert hash (S d) self key value true = Ok (true, self') ∧
    wf hash self' ∧
    model self' = <[key:=value]> (model self) ∧
    HT._capacity self' = HT._capacity self ∧
    HT._size self' = HT._size self.
Proof.
  intros Hwf Hm. destruct (bucket_wf self key Hwf) as (b & Hb & Hbk).
  rewrite (model_lookup self key b Hwf Hb), list_to_map_lookup_scan in Hm.
  destruct (HT.scan key b) as [[i e]|] eqn:Hscan; [|done].
  rewrite !insert_S, Hbk. simpl. rewrite Hscan.
  split; [done|]. eexists. split; [done|].
  destruct (update_spec self key value b i e Hwf Hb Hscan) as [Hwf1 Hm1].
  done.
Qed.

Lemma wf_init capacity :
  wf hash (HT.__init__ capacity : HT.t Obj) ∧
  model (HT.__init__ capacity : HT.t Obj) = ∅ ∧
  HT._capacity (HT.__init__ capacity : HT.t Obj) = Z.max 5 capacity ∧
  HT._size (HT.__init__ capacity : HT.t Obj) = 0%Z.
Proof.
  assert (∀ n, concat (replicate n ([] : list (string * Any Obj))) = []) as Hnil.
  { induction n; simpl; done. }
  unfold HT.__init__, model, HT.items. simpl. rewrite Hnil.
  split_and!; try done. split; simpl.
  - lia.
  - rewrite length_replicate. lia.
  - unfold HT.items. simpl. by rewrite Hnil.
  - intros j b e [-> _]%lookup_replicate He. by apply elem_of_nil in He.
  - intros j b [-> _]%lookup_replicate. constructor.
Qed.

Lemma insert_absent_fit d self key value allow_update :
  wf hash self → model self !! key = None →
  (4 * (HT._size self + 1) ≤ 3 * HT._capacity self)%Z →
  ∃ self',
    HT.insert hash (S d) self key value allow_update = Ok (true, self') ∧
    wf hash self' ∧
    model self' = <[key:=value]> (model self) ∧
    HT._capacity self' = HT._capacity self ∧
    HT._size self' = (HT._size self + 1)%Z.
Proof.
  intros Hwf Hm Hfit. destruct (bucket_wf self key Hwf) as (b & Hb & Hbk).
  rewrite (model_lookup self key b Hwf Hb), list_to_map_lookup_scan in Hm.
  destruct (HT.scan key b) as [[i e]|] eqn:Hscan; [done|].
  destruct (append_spec self key value b Hwf Hb Hscan) as [Hwf1 Hm1].
  rewrite insert_S, Hbk. simpl. rewrite Hscan.
  rewrite should_resize_spec by (simpl; pose proof (wf_capacity _ _ Hwf); lia).
  simpl. rewrite bool_decide_eq_false_2 by lia. simpl.
  eexists. split; [done|]. done.
Qed.

(** The loop of [_resize]: reinserting entries with distinct fresh keys
    into a table with room for all of them appends each one and never
    resizes again. *)
Lemma reinsert_spec d (l : list (string * Any Obj)) self :
  wf hash self → NoDup l.*1 →
  (∀ k, k ∈ l.*1 → model self !! k = None) →
  (4 * (HT._size self + Z.of_nat (length l)) ≤ 3 * HT._capacity self)%Z →
  ∃ self',
    for_each (λ self' e, HT.insert hash (S d) self' e.1 e.2 true ≫= λ r, Ok r.2)
             l self = Ok self' ∧
    wf hash self' ∧
    model self' = list_to_map l ∪ model self ∧
    HT._capacity self' = HT._capacity self ∧
    HT._size self' = (HT._size self + Z.of_nat (length l))%Z.
Proof.
  revert self. induction l as [|[k v] l IH]; intros self Hwf Hnd Hfresh Hfit.
  { exists self. simpl. split_and!; try done.
    - by rewrite (left_id_L ∅ (∪)).
    - lia. }
  apply NoDup_cons in Hnd as [Hk Hnd]. simpl in Hfit, Hk.
  destruct (insert_absent_fit d self k v true Hwf) as (s1 & Hins & Hwf1 & Hm1 & Hc1 & Hs1).
  { apply Hfresh. simpl. by left. }
  { lia. }
  destruct (IH s1 Hwf1 Hnd) as (s2 & Hfe & Hwf2 & Hm2 & Hc2 & Hs2).
  { intros k' Hk'. rewrite Hm1, lookup_insert_ne by (by intros ->).
    apply Hfresh. simpl. by right. }
  { rewrite Hc1, Hs1. lia. }
  exists s2. cbn [for_each fst snd]. rewrite Hins. cbn [mbind result_bind snd].
  split_and!; try done.
  - rewrite Hm2, Hm1, list_to_map_cons, <-insert_union_l.
    symmetry. apply insert_union_r. by apply not_elem_of_list_to_map_1.
  - congruence.
  - rewrite Hs2, Hs1. cbn [length]. lia.
Qed.

Lemma insert_absent_grow d self key value allow_update :
  wf hash self → balanced self → model self !! key = None →
  (3 * HT._capacity self < 4 * (HT._size self + 1))%Z →
  ∃ self',
    HT.insert hash (S (S d)) self key value allow_update = Ok (true, self') ∧
    wf hash self' ∧
    model self' = <[key:=value]> (model self) ∧
    HT._capacity self' = (HT._capacity self * 2 + 1)%Z ∧
    HT._size self' = (HT._size self + 1)%Z.
Proof.
  intros Hwf Hbal Hm Hgrow. destruct (bucket_wf self key Hwf) as (b & Hb & Hbk).
  rewrite (model_lookup self key b Hwf Hb), list_to_map_lookup_scan in Hm.
  destruct (HT.scan key b) as [[i e]|] eqn:Hscan; [done|].
  destruct (append_spec self key value b Hwf Hb Hscan) as [Hwf1 Hm1].
  pose proof (wf_capacity _ _ Hwf) as Hcap. unfold balanced in Hbal.
  rewrite insert_S, Hbk. simpl. rewrite Hscan.
  rewrite should_resize_spec by (simpl; lia).
  simpl. rewrite bool_decide_eq_true_2 by lia. simpl.
  rewrite resize_unfold.
  destruct (wf_init (HT._capacity self * 2 + 1)) as (Hwf0 & Hm0 & Hc0 & Hs0).
  match goal with |- context [for_each _ (HT.items ?s) _] => set (self1 := s) in * end.
  destruct (reinsert_spec d (HT.items self1) (HT.__init__ (HT._capacity self * 2 + 1)))
    as (self2 & Hfe & Hwf2 & Hm2 & Hc2 & Hs2).
  - done.
  - by apply wf_items_NoDup.
  - intros k _. by rewrite Hm0.
  - rewrite Hs0, Hc0. pose proof (wf_size _ _ Hwf1) as Hsz. simpl in Hsz.
    fold self1 in Hsz. lia.
  - rewrite Hfe. simpl. exists self2. split_and!; try done.
    + rewrite Hm2, Hm0, (right_id_L ∅ (∪)). exact Hm1.
    + rewrite Hc2, Hc0. lia.
    + rewrite Hs2, Hs0. pose proof (wf_size _ _ Hwf1) as Hsz. simpl in Hsz.
      fold self1 in Hsz. lia.
Qed.

Lemma insert_total d self key value allow_update :
  wf hash self → balanced self →
  ∃ ok self',
    HT.insert hash (S (S d)) self key value allow_update = Ok (ok, self') ∧
    insert_post hash self key value allow_update ok self'.
Proof.
  intros Hwf Hbal. unfold insert_post.
  pose proof (wf_capacity _ _ Hwf) as Hcap. pose proof Hbal as Hbal'.
  unfold balanced in Hbal'.
  destruct (model self !! key) as [v0|] eqn:Hm.
  - destruct (insert_present (S d) self key value v0 Hwf Hm)
      as (Hrej & self' & Hupd & Hwf' & Hm' & Hc' & Hs').
    rewrite bool_decide_eq_false_2 by done. simpl. rewrite orb_false_r.
    destruct allow_update.
    + exists true, self'. unfold balanced. rewrite Hc', Hs'.
      split_and!; try done. lia.
    + exists false, self. split_and!; try done. lia.
  - rewrite bool_decide_eq_true_2 by done. simpl. rewrite orb_true_r.
    destruct (decide (3 * HT._capacity self < 4 * (HT._size self + 1))%Z) as [Hg|Hf].
    + destruct (insert_absent_grow d self key value allow_update Hwf Hbal Hm Hg)
        as (self' & Hins & Hwf' & Hm' & Hc' & Hs').
      exists true, self'. rewrite bool_decide_eq_true_2 by done.
      unfold balanced. rewrite Hc', Hs'. split_and!; try done. lia.
    + destruct (insert_absent_fit (S d) self key value allow_update Hwf Hm)
        as (self' & Hins & Hwf' & Hm' & Hc' & Hs'); [lia|].
      exists true, self'. rewrite bool_decide_eq_false_2 by done.
      unfold balanced. rewrite Hc', Hs'. split_and!; try done. lia.
Qed.

Lemma insert_sound d self key value allow_update ok self' :
  wf hash self → balanced self →
  HT.insert hash d self key value allow_update = Ok (ok, self') →
  insert_post hash self key value allow_update ok self'.
Proof.
  intros Hwf Hbal Hins.
  destruct (insert_total d self key value allow_update Hwf Hbal)
    as (ok' & self'' & Hins' & Hpost).
  apply (insert_depth_le d (S (S d))) in Hins; [|lia].
  rewrite Hins in Hins'. by simplify_eq.
Qed.

(** ** Histories *)

Lemma run_snoc depth capacity ops o :
  run hash depth capacity (ops ++ [o])
  = run hash depth capacity ops ≫= λ self, step hash depth self o.
Proof.
  unfold run. rewrite for_each_app. destruct (for_each _ ops _); simpl; [|done].
  by destruct (step hash depth a o).
Qed.

Lemma live_keys_snoc (ops : list (op (Obj:=Obj))) o :
  live_keys (ops ++ [o])
  = match o with
    | Insert key _ _ => {[key]} ∪ live_keys ops
    | Delete key => live_keys ops ∖ {[key]}
    end.
Proof. unfold live_keys. by rewrite fold_left_app. Qed.

Lemma run_inv depth capacity ops self :
  run hash depth capacity ops = Ok self →
  wf hash self ∧ balanced self ∧ dom (model self) = live_keys ops.
Proof.
  revert self. induction ops as [|o ops IH] using rev_ind; intros self Hrun.
  - injection Hrun as <-.
    destruct (wf_init capacity) as (Hwf & Hm & Hc & Hs).
    split_and!; [done| |].
    + unfold balanced. rewrite Hc, Hs. lia.
    + rewrite Hm. by rewrite dom_empty_L.
  - rewrite run_snoc in Hrun. apply bind_Ok in Hrun as (s0 & Hrun & Hstep).
    destruct (IH s0 Hrun) as (Hwf & Hbal & Hdom). rewrite live_keys_snoc.
    destruct o as [key value au|key]; simpl in Hstep;
      apply bind_Ok in Hstep as ([ok s1] & Hop & [= <-]).
    + apply insert_sound in Hop as (Hwf' & Hbal' & Hok & Hm' & _); [|done..].
      split_and!; [done..|]. rewrite Hm'. destruct ok.
      * by rewrite dom_insert_L, Hdom.
      * destruct au; [done|]. simpl in Hok. symmetry in Hok.
        apply bool_decide_eq_false in Hok.
        assert (key ∈ dom (model s0)) as Hin.
        { apply elem_of_dom. by apply not_eq_None_Some. }
        rewrite <-Hdom. symmetry. apply subseteq_union_1_L.
        by apply singleton_subseteq_l.
    + destruct (delete_spec s0 key Hwf) as (s1' & Hdel & Hwf' & Hm' & Hc' & Hs' & _).
      rewrite Hdel in Hop. simplify_eq.
      split_and!; [done| |].
      * unfold balanced in *. rewrite Hc', Hs'. case_bool_decide; lia.
      * by rewrite Hm', dom_delete_L, Hdom.
Qed.

Lemma run_total d capacity (ops : list (op (Obj:=Obj))) :
  ∃ self, run hash (S (S d)) capacity ops = Ok self.
Proof.
  induction ops as [|o ops [s0 IH]] using rev_ind.
  - by eexists.
  - rewrite run_snoc, IH. cbn [mbind result_bind].
    destruct (run_inv _ _ _ _ IH) as (Hwf & Hbal & _).
    destruct o as [key value au|key]; cbn [step].
    + destruct (insert_total d s0 key value au Hwf Hbal) as (ok & s1 & -> & _).
      by eexists.
    + destruct (delete_spec s0 key Hwf) as (s1 & -> & _). by eexists.
Qed.

Lemma reachable_inv self : reachable hash self → wf hash self ∧ balanced self.
Proof.
  intros (depth & capacity & ops & Hrun).
  destruct (run_inv _ _ _ _ Hrun) as (? & ? & _). done.
Qed.

Lemma reachable_init capacity :
  reachable hash (HT.__init__ capacity : HT.t Obj).
Proof. by exists 0, capacity, []. Qed.

Lemma step_depth_le n m self (o : op (Obj:=Obj)) r :
  n ≤ m → step hash n self o = Ok r → step hash m self o = Ok r.
Proof.
  intros Hle. destruct o as [k v au|k]; cbn [step]; [|done].
  intros ([ok t'] & Hins & Hr)%bind_Ok.
  by rewrite (insert_depth_le n m _ _ _ _ _ Hle Hins).
Qed.

Lemma run_depth_le n m capacity (ops : list (op (Obj:=Obj))) r :
  n ≤ m → run hash n capacity ops = Ok r → run hash m capacity ops = Ok r.
Proof.
  intros Hle. unfold run. apply for_each_impl.
  intros t o r'. by apply step_depth_le.
Qed.

Lemma reachable_step depth self o self' :
  reachable hash self → step hash depth self o = Ok self' →
  reachable hash self'.
Proof.
  intros (d & capacity & ops & Hrun) Hstep.
  exists (d `max` depth), capacity, (ops ++ [o]).
  rewrite run_snoc, (run_depth_le d (d `max` depth) _ _ _ ltac:(lia) Hrun).
  cbn [mbind result_bind]. apply (step_depth_le depth); [lia|done].
Qed.

Lemma reachable_insert depth self key value allow_update ok self' :
  reachable hash self →
  HT.insert hash depth self key value allow_update = Ok (ok, self') →
  reachable hash self'.
Proof.
  intros Hr Hins. apply (reachable_step depth self (Insert key value allow_update)); [done|].
  cbn [step]. by rewrite Hins.
Qed.

Lemma reachable_delete self key ok self' :
  reachable hash self → HT.delete hash self key = Ok (ok, self') →
  reachable hash self'.
Proof.
  intros Hr Hdel. apply (reachable_step 0 self (Delete key)); [done|].
  cbn [step]. by rewrite Hdel.
Qed.

(** The first insert of a key, with the size and capacity as numbers. *)
Lemma insert_fresh self key value allow_update (s c : Z) :
  wf hash self → balanced self → model self !! key = None →
  HT._size self = s → HT._capacity self = c →
  ∃ self',
    HT.insert hash 2 self key value allow_update = Ok (true, self') ∧
    wf hash self' ∧ balanced self' ∧
    model self' = <[key:=value]> (model self) ∧
    HT._size self' = (s + 1)%Z ∧
    HT._capacity self' = (if (3 * c <? 4 * (s + 1))%Z then c * 2 + 1 else c)%Z.
Proof.
  intros Hwf Hbal Hm <- <-.
  destruct (insert_total 0 self key value allow_update Hwf Hbal)
    as (ok & self' & Hins & Hwf' & Hbal' & Hok & Hm' & _ & Hs & Hc).
  rewrite bool_decide_eq_true_2 in Hok, Hs, Hc by done.
  rewrite orb_true_r in Hok. subst ok. simpl in Hc.
  exists self'. split_and!; try done.
  rewrite Hc. case_bool_decide; destruct (Z.ltb_spec (3 * HT._capacity self)
    (4 * (HT._size self + 1))); (done || lia).
Qed.

(** At depth 1 the reinsertions of [_resize] have no depth left, so an
    [insert] that returns at depth 1 has not resized. *)
Lemma insert_depth_1_no_resize self key value allow_update ok self' :
  HT.insert hash 1 self key value allow_update = Ok (ok, self') →
  HT._capacity self' = HT._capacity self.
Proof.
  rewrite insert_S. intros ([j b] & Hb & H)%bind_Ok.
  destruct (HT.scan key b) as [[i e]|].
  { destruct allow_update; by simplify_eq. }
  cbn zeta in H. apply bind_Ok in H as ([|] & _ & H); [|by simplify_eq].
  apply bind_Ok in H as (self2 & Hres & _). exfalso.
  rewrite resize_unfold in Hres.
  assert (HT._buckets self !! j = Some b) as Hj.
  { unfold HT._bucket in Hb.
    apply bind_Ok in Hb as (idx & _ & (j' & _ & Hb)%bind_Ok).
    destruct (HT._buckets self !! j') eqn:E; by simplify_eq. }
  unfold HT.items in Hres. cbn [HT._buckets] in Hres.
  destruct (concat _) as [|e l] eqn:Hl; [|done].
  assert ((key, value) ∈ concat (<[j:=b ++ [(key, value)]]> (HT._buckets self))) as Hin.
  { apply elem_of_concat_lookup. exists j, (b ++ [(key, value)]). split.
    - apply list_lookup_insert_eq. by eapply lookup_lt_Some.
    - apply elem_of_app. right. by apply list_elem_of_singleton. }
  rewrite Hl in Hin. by apply elem_of_nil in Hin.
Qed.

End Table.

(** ** The load factor in integers *)

Lemma load_gt (s c : Z) :
  (0 < c)%Z → (3 # 4 < inject_Z s / inject_Z c)%Q ↔ (3 * c < 4 * s)%Z.
Proof.
  intros Hc. destruct c as [|p|p]; try lia.
  unfold Qlt, Qdiv, Qmult, Qinv, inject_Z. simpl. rewrite Pos.mul_1_l. lia.
Qed.


Lemma length_concat_sum {A} (bs : list (list A)) :
  length (concat bs) = sum_list (length <$> bs).
Proof. induction bs as [|b bs IH]; simpl; [done|]. by rewrite length_app, IH. Qed.

(** * The properties of the specification *)

Section Claims.
Context {Obj : Type} (hash : string → Z).
Implicit Types (self : HT.t Obj) (key k : string) (value v : Any Obj).

(** C1 (as amended).  On a reachable table, [insert(key, value, True)]
    returns success; afterwards [get(key)] returns exactly the stored
    value, and [contains(key)] returns true when the value is not [None]
    and false when it is, because [contains] is [get(key) is not None]. *)
Theorem insert_then_get self key value d :
  reachable hash self →
  (∃ self', HT.insert hash (S (S d)) self key value true = Ok (true, self')) ∧
  ∀ depth ok self',
    HT.insert hash depth self key value true = Ok (ok, self') →
    ok = true ∧
    HT.get hash self' key = Ok value ∧
    HT.contains hash self' key = Ok (is_not_None value).
Proof.
  intros [Hwf Hbal]%reachable_inv.
  assert (∀ depth ok self',
            HT.insert hash depth self key value true = Ok (ok, self') →
            ok = true ∧ HT.get hash self' key = Ok value ∧
            HT.contains hash self' key = Ok (is_not_None value)) as Hpost.
  { intros depth ok self' Hins.
    apply insert_sound in Hins as (Hwf' & _ & Hok & Hm & _); [|done..].
    simpl in Hok. subst ok.
    rewrite contains_spec, get_spec, Hm, lookup_insert_eq by done. done. }
  split; [|done].
  destruct (insert_total hash d self key value true Hwf Hbal)
    as (ok & self' & Hins & _).
  destruct (Hpost _ _ _ Hins) as [-> _]. eauto.
Qed.

(** C2.  After [insert(key, v1, False)] has succeeded on a reachable table,
    a second [insert(key, v2, False)] returns failure and leaves the table
    exactly as it was (buckets, size and capacity), and [get(key)] still
    returns [v1]. *)
Theorem insert_twice_no_update self key v1 v2 d1 d2 self1 :
  reachable hash self →
  HT.insert hash d1 self key v1 false = Ok (true, self1) →
  HT.insert hash (S d2) self1 key v2 false = Ok (false, self1) ∧
  HT.get hash self1 key = Ok v1.
Proof.
  intros [Hwf Hbal]%reachable_inv Hins.
  apply insert_sound in Hins as (Hwf1 & _ & _ & Hm & _); [|done..].
  assert (model self1 !! key = Some v1) as Hk by (by rewrite Hm, lookup_insert_eq).
  destruct (insert_present hash d2 self1 key v2 v1 Hwf1 Hk) as [Hrej _].
  split; [done|]. by rewrite get_spec, Hk.
Qed.

(** C7.  Constructing a table with a requested capacity below 5 yields a
    table of capacity exactly 5 (with 5 empty buckets and size 0), and every
    reachable table has capacity at least 5. *)
Theorem capacity_floor :
  (∀ capacity, (capacity < 5)%Z →
     (HT.__init__ capacity : HT.t Obj) = HT.Build 5 (replicate 5 []) 0) ∧
  (∀ self, reachable hash self → (5 ≤ HT._capacity self)%Z).
Proof.
  split.
  - intros capacity Hlt. unfold HT.__init__.
    by replace (Z.max 5 capacity) with 5%Z by lia.
  - intros self [Hwf _]%reachable_inv. apply (wf_capacity _ _ Hwf).
Qed.

(** C3.  On a reachable table an [insert] changes the capacity (resizes)
    exactly when it added a new entry and the load factor right after the
    addition, new size over old capacity, exceeds 0.75; an update or a
    rejected insert never resizes; the new capacity is twice the old one
    plus one.  On a table constructed with capacity 5, the first three
    inserts of distinct keys leave the capacity at 5 and the fourth
    (load factor 4/5) resizes it to 11. *)
Theorem resize_trigger :
  (∀ self key value allow_update depth ok self',
     reachable hash self →
     HT.insert hash depth self key value allow_update = Ok (ok, self') →
     (HT._capacity self' ≠ HT._capacity self ↔
        HT._size self' = (HT._size self + 1)%Z ∧
        (3 # 4 < inject_Z (HT._size self') / inject_Z (HT._capacity self))%Q) ∧
     (HT._capacity self' ≠ HT._capacity self →
        HT._capacity self' = (HT._capacity self * 2 + 1)%Z ∧
        absent self key ∧ ok = true) ∧
     (HT._capacity self' = HT._capacity self ∨
      HT._capacity self' = (HT._capacity self * 2 + 1)%Z)) ∧
  (∀ k1 k2 k3 k4 v1 v2 v3 v4 a1 a2 a3 a4,
     NoDup [k1; k2; k3; k4] →
     ∃ t3 t4 : HT.t Obj,
       run hash 2 5 [Insert k1 v1 a1; Insert k2 v2 a2; Insert k3 v3 a3] = Ok t3 ∧
       HT._capacity t3 = 5%Z ∧ HT._size t3 = 3%Z ∧
       HT.insert hash 2 t3 k4 v4 a4 = Ok (true, t4) ∧
       HT._capacity t4 = 11%Z ∧ HT._size t4 = 4%Z).
Proof.
  split.
  - intros self key value au depth ok self' [Hwf Hbal]%reachable_inv Hins.
    apply insert_sound in Hins as (Hwf' & _ & Hok & _ & _ & Hs & Hc); [|done..].
    pose proof (wf_capacity _ _ Hwf) as Hcap.
    rewrite load_gt by lia. rewrite Hs, Hc. clear Hs Hc.
    destruct (model self !! key) as [v0|] eqn:Hm.
    + rewrite bool_decide_eq_false_2 by done. simpl. split_and!; [|done|by left].
      split; [done|]. lia.
    + rewrite bool_decide_eq_true_2 by done. simpl.
      rewrite orb_true_r in Hok.
      destruct (decide (3 * HT._capacity self < 4 * (HT._size self + 1))%Z) as [Hg|Hg].
      * rewrite bool_decide_eq_true_2 by done.
        split_and!; [|intros _; split_and!; [done| |done] |by right].
        -- split; [|lia]. intros _. split; lia.
        -- exact (proj2 (absent_model hash self key Hwf) Hm).
      * rewrite bool_decide_eq_false_2 by done.
        split_and!; [|done|by left]. split; [done|]. lia.
  - intros k1 k2 k3 k4 v1 v2 v3 v4 a1 a2 a3 a4 Hnd.
    rewrite !NoDup_cons, !not_elem_of_cons in Hnd. destruct_and!.
    destruct (wf_init hash (Obj:=Obj) 5) as (Hwf0 & Hm0 & Hc0 & Hs0).
    assert (balanced (HT.__init__ 5 : HT.t Obj)) as Hbal0
      by (unfold balanced; rewrite Hc0, Hs0; lia).
    destruct (insert_fresh hash _ k1 v1 a1 0 5 Hwf0 Hbal0)
      as (t1 & Hi1 & Hwf1 & Hbal1 & Hm1 & Hs1 & Hc1); [by rewrite Hm0|done..|].
    destruct (insert_fresh hash _ k2 v2 a2 1 5 Hwf1 Hbal1)
      as (t2 & Hi2 & Hwf2 & Hbal2 & Hm2 & Hs2 & Hc2);
      [by rewrite Hm1, Hm0, lookup_insert_ne|done..|].
    destruct (insert_fresh hash _ k3 v3 a3 2 5 Hwf2 Hbal2)
      as (t3 & Hi3 & Hwf3 & Hbal3 & Hm3 & Hs3 & Hc3);
      [by rewrite Hm2, Hm1, Hm0, !lookup_insert_ne|done..|].
    destruct (insert_fresh hash _ k4 v4 a4 3 5 Hwf3 Hbal3)
      as (t4 & Hi4 & Hwf4 & Hbal4 & Hm4 & Hs4 & Hc4);
      [by rewrite Hm3, Hm2, Hm1, Hm0, !lookup_insert_ne|done..|].
    exists t3, t4. split_and!; try done.
    unfold run. cbn [for_each step].
    rewrite Hi1. cbn [mbind result_bind snd].
    rewrite Hi2. cbn [mbind result_bind snd].
    rewrite Hi3. done.
Qed.

(** C4.  Every history of inserts and deletes on a freshly constructed
    table returns a table (depth 2 is enough), and in that table the size
    is the sum of the bucket lengths, the size is the number of keys
    inserted and not deleted since, and no key occurs in two entries. *)
Theorem size_counts_live_keys depth capacity (ops : list (op (Obj:=Obj))) :
  (∃ self, run hash (S (S depth)) capacity ops = Ok self) ∧
  ∀ d self,
    run hash d capacity ops = Ok self →
    HT.__len__ self = Z.of_nat (sum_list (length <$> HT._buckets self)) ∧
    HT.__len__ self = Z.of_nat (size (live_keys ops)) ∧
    NoDup (HT.items self).*1.
Proof.
  split; [apply run_total|].
  intros d self Hrun.
  destruct (run_inv hash _ _ _ _ Hrun) as (Hwf & _ & Hdom).
  unfold HT.__len__. split_and!.
  - rewrite <-length_concat_sum. apply (wf_size _ _ Hwf).
  - rewrite <-Hdom, size_dom. by apply (wf_size_model hash).
  - by apply (wf_items_NoDup hash).
Qed.

(** C5.  On a reachable table, inserting a new key that takes the load
    factor above 0.75 returns success and resizes to twice the capacity
    plus one; every entry present before is still an entry afterwards and
    [get] returns its same value; exactly one entry has been added. *)
Theorem resize_keeps_entries self key value allow_update d :
  reachable hash self →
  absent self key →
  (3 # 4 < inject_Z (HT._size self + 1) / inject_Z (HT._capacity self))%Q →
  ∃ self',
    HT.insert hash (S (S d)) self key value allow_update = Ok (true, self') ∧
    HT._capacity self' = (HT._capacity self * 2 + 1)%Z ∧
    (∀ k v, (k, v) ∈ HT.items self →
            (k, v) ∈ HT.items self' ∧ HT.get hash self' k = Ok v) ∧
    length (HT.items self') = S (length (HT.items self)).
Proof.
  intros [Hwf Hbal]%reachable_inv Habs Hload.
  pose proof (wf_capacity _ _ Hwf) as Hcap.
  apply load_gt in Hload; [|lia]. apply (absent_model hash) in Habs; [|done].
  destruct (insert_absent_grow hash d self key value allow_update Hwf Hbal Habs Hload)
    as (self' & Hins & Hwf' & Hm' & Hc' & Hs').
  exists self'. split_and!; try done.
  - intros k v Hkv. apply (elem_of_items_model hash) in Hkv; [|done].
    assert (model self' !! k = Some v) as Hk'.
    { rewrite Hm', lookup_insert_ne; [done|]. intros ->. congruence. }
    split; [by apply (elem_of_items_model hash)|]. by rewrite get_spec, Hk'.
  - pose proof (wf_size _ _ Hwf). pose proof (wf_size _ _ Hwf'). lia.
Qed.

(** C6.  On a reachable table [delete(key)] returns, with success exactly
    when the key has an entry; when it returns success, [contains(key)] is
    false afterwards, the length has gone down by exactly one and the
    capacity is unchanged; when the key has no entry it returns failure and
    the table is unchanged. *)
Theorem delete_complete self key :
  reachable hash self →
  ∃ ok self',
    HT.delete hash self key = Ok (ok, self') ∧
    (ok = true ↔ ¬ absent self key) ∧
    (ok = true →
       HT.contains hash self' key = Ok false ∧
       HT.__len__ self' = (HT.__len__ self - 1)%Z ∧
       HT._capacity self' = HT._capacity self) ∧
    (absent self key → ok = false ∧ self' = self).
Proof.
  intros [Hwf Hbal]%reachable_inv.
  destruct (delete_spec hash self key Hwf)
    as (self' & Hdel & Hwf' & Hm' & Hc' & Hs' & Hsame).
  eexists _, self'. split; [done|]. split_and!.
  - rewrite (absent_model hash) by done. rewrite bool_decide_eq_true.
    by rewrite not_eq_None_Some.
  - intros Hok. rewrite Hok in Hs'. unfold HT.__len__.
    rewrite contains_spec, Hm', lookup_delete_eq by done. done.
  - intros Habs. apply (absent_model hash) in Habs; [|done].
    rewrite bool_decide_eq_false_2 by (rewrite Habs; by intros [? ?]). auto.
Qed.


End Claims.

(** ** The lookup passes of the benchmark *)

Section Benchmark.
Variable hash : string → Z.

Lemma get_linear_search (self : IS.t) (q : string) :
  reachable hash (IS.table self) → mirrored self →
  HT.get hash (IS.table self) q = Ok (IS.linear_search self q).
Proof.
  intros [Hwf _]%reachable_inv [_ Hmir]. rewrite get_spec by done.
  unfold IS.linear_search. f_equal.
  destruct (list_find _ (IS.array self)) as [[i p]|] eqn:Hfind.
  - apply list_find_Some in Hfind as (Hi & Hq & _).
    assert ((q, PyObj p) ∈ HT.items (IS.table self)) as Hin.
    { apply Hmir. exists p. split_and!; [by eapply list_elem_of_lookup_2|done..]. }
    apply (elem_of_items_model hash) in Hin; [|done]. by rewrite Hin.
  - apply list_find_None in Hfind. rewrite Forall_forall in Hfind.
    destruct (model (IS.table self) !! q) as [v|] eqn:Hm; [|done].
    apply (elem_of_items_model hash) in Hm; [|done].
    apply Hmir in Hm as (p & Hp & -> & _). by destruct (Hfind p Hp).
Qed.

Lemma hash_pass_loop (self : IS.t) (queries : list string) acc :
  (∀ q, HT.get hash (IS.table self) q = Ok (IS.linear_search self q)) →
  for_each (λ acc q, HT.get hash (IS.table acc.2) q ≫= λ v, Ok (acc.1 ++ [v], acc.2))
           queries (acc, self)
  = Ok (acc ++ (IS.linear_search self <$> queries), self).
Proof.
  intros Hget. revert acc. induction queries as [|q queries IH]; intros acc.
  - simpl. by rewrite app_nil_r.
  - cbn [for_each fst snd]. rewrite Hget. cbn [mbind result_bind fst snd].
    rewrite IH, fmap_cons. by rewrite <-app_assoc.
Qed.

Lemma array_pass_loop (self : IS.t) (queries : list string) acc :
  for_each (λ acc q, Ok (acc.1 ++ [IS.linear_search acc.2 q], acc.2))
           queries (acc, self)
  = Ok (acc ++ (IS.linear_search self <$> queries), self).
Proof.
  revert acc. induction queries as [|q queries IH]; intros acc.
  - simpl. by rewrite app_nil_r.
  - cbn [for_each fst snd mbind result_bind].
    rewrite IH, fmap_cons. by rewrite <-app_assoc.
Qed.

(** C8.  When the table is reachable and mirrors the array, [table.get]
    and the first-match linear scan return the same result for every query
    key (the same product, or [None] from both); the two passes over a
    shared list of queries return the same list of results, and each
    leaves the table and the array as they were. *)
Theorem lookups_agree (self : IS.t) (queries : list string) :
  reachable hash (IS.table self) → mirrored self →
  (∀ q, HT.get hash (IS.table self) q = Ok (IS.linear_search self q)) ∧
  ∃ out,
    IS.hash_pass hash self queries = Ok (out, self) ∧
    IS.array_pass self queries = Ok (out, self).
Proof.
  intros Hreach Hmir.
  assert (∀ q, HT.get hash (IS.table self) q = Ok (IS.linear_search self q))
    as Hget by (intros q; by apply get_linear_search).
  split; [done|]. exists (IS.linear_search self <$> queries).
  unfold IS.hash_pass, IS.array_pass.
  by rewrite hash_pass_loop, array_pass_loop.
Qed.

End Benchmark.

(** ** factorial *)

Lemma factorial_loop (m : nat) :
  fold_left (λ result i, result * i)%Z (seqZ 2 (Z.of_nat m)) 1%Z
  = Z.of_nat (fact (S m)).
Proof.
  induction m as [|m IH]; [done|].
  rewrite seqZ_S, fold_left_app, IH. cbn [fold_left].
  change (fact (S (S m))) with (S (S m) * fact (S m))%nat.
  rewrite Nat2Z.inj_mul, !Nat2Z.inj_succ. ring.
Qed.

(** C10.  [factorial(n)] raises [ValueError] exactly when [n < 0]; for
    every [n >= 0] it returns the factorial of [n], in unbounded integers. *)
Theorem factorial_spec (n : Z) :
  (factorial n = Raise ValueError ↔ (n < 0)%Z) ∧
  factorial n
  = (if (n <? 0)%Z then Raise ValueError
     else Ok (Z.of_nat (fact (Z.to_nat n)))).
Proof.
  unfold factorial, range. destruct (Z.ltb_spec n 0) as [Hneg|Hpos].
  { split; [done|done]. }
  assert (fold_left (λ result i, result * i)%Z (seqZ 2 (n + 1 - 2)) 1%Z
          = Z.of_nat (fact (Z.to_nat n))) as ->.
  { destruct (decide (n = 0%Z)) as [->|Hn]; [done|].
    replace (n + 1 - 2)%Z with (Z.of_nat (Z.to_nat n - 1)) by lia.
    rewrite factorial_loop. do 2 f_equal. lia. }
  split; [|done]. split; [done|lia].
Qed.

Example factorial_0 : factorial 0 = Ok 1%Z.
Proof. reflexivity. Qed.

Example factorial_1 : factorial 1 = Ok 1%Z.
Proof. reflexivity. Qed.

Example factorial_5 : factorial 5 = Ok 120%Z.
Proof. reflexivity. Qed.

Example factorial_negative : factorial (-3) = Raise ValueError.
Proof. reflexivity. Qed.

(** * Examples on concrete tables *)

Example run_abc : run toy_hash 2 5 abc_ops = Ok table_abc.
Proof. reflexivity. Qed.

Example insert_d_resizes :
  HT.insert toy_hash 2 table_abc "d" (PyObj 4%Z) false = Ok (true, table_abcd).
Proof. reflexivity. Qed.

Example insert_d_needs_depth_2 :
  HT.insert toy_hash 1 table_abc "d" (PyObj 4%Z) false = Raise RecursionError.
Proof. reflexivity. Qed.

Example shop_built :
  IS.insert_product toy_hash 1 (IS.Build (HT.__init__ 5) []) diapers
    ≫= (λ r, IS.insert_product toy_hash 1 r.2 wipes)
  = Ok (true, shop).
Proof. reflexivity. Qed.

Lemma reachable_fresh : reachable toy_hash (HT.__init__ 5 : HT.t Z).
Proof. exists 0, 5%Z, []. reflexivity. Defined.

Lemma reachable_abc : reachable toy_hash table_abc.
Proof. exists 2, 5%Z, abc_ops. reflexivity. Defined.

Lemma reachable_shop : reachable toy_hash (IS.table shop).
Proof.
  exists 1, 5%Z, [Insert "SKU-0001" (PyObj diapers) false;
                  Insert "SKU-0002" (PyObj wipes) false].
  reflexivity.
Defined.

Lemma mirrored_shop : mirrored shop.
Proof.
  split.
  - apply (bool_decide_unpack _). exact I.
  - intros k v. unfold shop, HT.items. simpl. split.
    + intros Hin. apply elem_of_cons in Hin as [Hin|Hin].
      * injection Hin as -> ->. exists diapers. split; [left|done].
      * apply elem_of_cons in Hin as [Hin|Hin]; [|by apply elem_of_nil in Hin].
        injection Hin as -> ->. exists wipes. split; [right; left|done].
    + intros (p & Hp & -> & ->).
      apply elem_of_cons in Hp as [->|Hp]; [left|].
      apply elem_of_cons in Hp as [->|Hp]; [right; left|].
      by apply elem_of_nil in Hp.
Defined.

(** C1 as stated fails: a stored [None] is returned by [get] but
    [contains] answers false. *)
Lemma stored_None_not_contained :
  HT.insert toy_hash 2 (HT.__init__ 5) "a" PyNone true = Ok (true, table_a_None) ∧
  HT.get toy_hash table_a_None "a" = Ok PyNone ∧
  HT.contains toy_hash table_a_None "a" = Ok false ∧
  HT.contains toy_hash table_a_None "a" ≠ Ok true.
Proof. split_and!; [reflexivity..|discriminate]. Qed.

Lemma insert_then_get_witness :
  HT.get toy_hash table_a "a" = Ok (PyObj 1%Z) ∧
  HT.contains toy_hash table_a "a" = Ok true.
Proof.
  destruct (insert_then_get toy_hash (HT.__init__ 5 : HT.t Z) "a" (PyObj 1%Z) 0
              reachable_fresh) as [_ H].
  destruct (H 1 true table_a) as (_ & Hg & Hc); [reflexivity|].
  split; assumption.
Defined.

Lemma insert_twice_no_update_witness :
  HT.insert toy_hash 1 table_a "a" (PyObj 2%Z) false = Ok (false, table_a) ∧
  HT.get toy_hash table_a "a" = Ok (PyObj 1%Z).
Proof.
  apply (insert_twice_no_update toy_hash (HT.__init__ 5) "a" (PyObj 1%Z) (PyObj 2%Z)
           1 0 table_a reachable_fresh).
  reflexivity.
Defined.

Lemma resize_trigger_witness :
  (HT._capacity table_abcd ≠ HT._capacity table_abc ↔
     HT._size table_abcd = (HT._size table_abc + 1)%Z ∧
     (3 # 4 < inject_Z (HT._size table_abcd) / inject_Z (HT._capacity table_abc))%Q) ∧
  ∃ t3 t4 : HT.t Z,
    run toy_hash 2 5 [Insert "a" PyNone true; Insert "b" PyNone true;
                      Insert "c" PyNone true] = Ok t3 ∧
    HT._capacity t3 = 5%Z ∧ HT._size t3 = 3%Z ∧
    HT.insert toy_hash 2 t3 "d" PyNone true = Ok (true, t4) ∧
    HT._capacity t4 = 11%Z ∧ HT._size t4 = 4%Z.
Proof.
  destruct (resize_trigger (Obj:=Z) toy_hash) as [Hgen Hscen]. split.
  - apply (Hgen table_abc "d" (PyObj 4%Z) false 2 true table_abcd reachable_abc).
    reflexivity.
  - apply Hscen. apply (bool_decide_unpack _). exact I.
Defined.

Lemma size_counts_live_keys_witness :
  HT.__len__ table_abc = Z.of_nat (size (live_keys abc_ops)) ∧
  NoDup (HT.items table_abc).*1.
Proof.
  destruct (size_counts_live_keys toy_hash 0 5 abc_ops) as [_ H].
  destruct (H 2 table_abc) as (_ & Hlive & Hnd); [reflexivity|].
  split; assumption.
Defined.

Lemma resize_keeps_entries_witness :
  ∃ self',
    HT.insert toy_hash 2 table_abc "d" (PyObj 4%Z) false = Ok (true, self') ∧
    HT._capacity self' = 11%Z ∧
    (∀ k v, (k, v) ∈ HT.items table_abc →
            (k, v) ∈ HT.items self' ∧ HT.get toy_hash self' k = Ok v) ∧
    length (HT.items self') = 4.
Proof.
  apply (resize_keeps_entries toy_hash table_abc "d" (PyObj 4%Z) false 0 reachable_abc).
  - intros v Hin. unfold table_abc, HT.items in Hin. simpl in Hin.
    repeat (apply elem_of_cons in Hin as [Hin|Hin]; [discriminate Hin|]).
    by apply elem_of_nil in Hin.
  - reflexivity.
Defined.

Lemma delete_complete_witness :
  HT.delete toy_hash table_abc "b" = Ok (true, table_ac) ∧
  HT.contains toy_hash table_ac "b" = Ok false ∧
  HT.__len__ table_ac = (HT.__len__ table_abc - 1)%Z ∧
  HT._capacity table_ac = HT._capacity table_abc ∧
  ∃ self', HT.delete toy_hash table_ac "b" = Ok (false, self') ∧ self' = table_ac.
Proof.
  destruct (delete_complete toy_hash table_abc "b" reachable_abc)
    as (ok & self' & Hdel & Hiff & Hsucc & _).
  assert (ok = true) as Hok.
  { apply Hiff. intros Ha. apply (Ha (PyObj 2%Z)).
    unfold table_abc, HT.items. simpl. right. left. }
  injection Hdel as Hok' <-. destruct (Hsucc Hok) as (Hc & Hl & Hcap).
  split_and!; [reflexivity|exact Hc|exact Hl|exact Hcap|].
  assert (reachable toy_hash table_ac) as Hreach.
  { exists 2, 5%Z, (abc_ops ++ [Delete "b"]). reflexivity. }
  destruct (delete_complete toy_hash table_ac "b" Hreach)
    as (ok2 & self2 & Hdel2 & _ & _ & Habs).
  destruct Habs as [-> ->].
  { intros v Hin. unfold table_ac, HT.items in Hin. simpl in Hin.
    repeat (apply elem_of_cons in Hin as [Hin|Hin]; [discriminate Hin|]).
    by apply elem_of_nil in Hin. }
  exists table_ac. split; [exact Hdel2|reflexivity].
Defined.

Lemma capacity_floor_witness :
  (HT.__init__ 3 : HT.t Z) = HT.Build 5 (replicate 5 []) 0 ∧
  (5 ≤ HT._capacity table_abc)%Z.
Proof.
  destruct (capacity_floor (Obj:=Z) toy_hash) as [Hinit Hreach]. split.
  - apply Hinit. lia.
  - apply Hreach. exact reachable_abc.
Defined.

Lemma lookups_agree_witness :
  HT.get toy_hash (IS.table shop) "SKU-0002" = Ok (PyObj wipes) ∧
  HT.get toy_hash (IS.table shop) "MISS-0001" = Ok PyNone ∧
  ∃ out,
    IS.hash_pass toy_hash shop ["SKU-0002"; "MISS-0001"; "SKU-0001"] = Ok (out, shop) ∧
    IS.array_pass shop ["SKU-0002"; "MISS-0001"; "SKU-0001"] = Ok (out, shop).
Proof.
  destruct (lookups_agree toy_hash shop ["SKU-0002"; "MISS-0001"; "SKU-0001"]
              reachable_shop mirrored_shop) as [Hget Hpass].
  split_and!; [apply Hget..|exact Hpass].
Defined.


Lemma factorial_spec_witness : factorial 5 = Ok 120%Z.
Proof. exact (proj2 (factorial_spec 5)). Defined.

(** * Further properties of the hash table *)

Section TableExtras.
Context {Obj : Type} (hash : string → Z).
Implicit Types (self : HT.t Obj) (key k : string) (value v : Any Obj).

(** X1.  An [insert] of [key], whatever it returns and whether or not it
    resizes, leaves the result of [get] unchanged for every other key. *)
Theorem insert_frame self key value allow_update depth ok self' k :
  reachable hash self →
  HT.insert hash depth self key value allow_update = Ok (ok, self') →
  k ≠ key →
  HT.get hash self' k = HT.get hash self k.
Proof.
  intros [Hwf Hbal]%reachable_inv Hins Hne.
  apply insert_sound in Hins as (Hwf' & _ & _ & Hm & _); [|done..].
  rewrite !get_spec, Hm by done.
  destruct ok; [|done]. by rewrite lookup_insert_ne.
Qed.

(** X2.  After [delete(key)], successful or not, [get(key)] returns [None]
    and [get] of every other key is unchanged. *)
Theorem delete_frame self key ok self' :
  reachable hash self →
  HT.delete hash self key = Ok (ok, self') →
  HT.get hash self' key = Ok PyNone ∧
  ∀ k, k ≠ key → HT.get hash self' k = HT.get hash self k.
Proof.
  intros [Hwf Hbal]%reachable_inv Hdel.
  destruct (delete_spec hash self key Hwf) as (s & Hdel' & Hwf' & Hm & _).
  rewrite Hdel in Hdel'. simplify_eq. split.
  - by rewrite get_spec, Hm, lookup_delete_eq.
  - intros k Hne. by rewrite !get_spec, Hm, lookup_delete_ne.
Qed.

(** X3.  [insert] returns [False] exactly when the key already has an
    entry and [allow_update] is false; in that case the table is returned
    as it was. *)
Theorem insert_rejects_iff self key value allow_update depth ok self' :
  reachable hash self →
  HT.insert hash depth self key value allow_update = Ok (ok, self') →
  (ok = false ↔ allow_update = false ∧ ¬ absent self key) ∧
  (ok = false → self' = self).
Proof.
  intros [Hwf Hbal]%reachable_inv Hins.
  apply insert_sound in Hins as (_ & _ & Hok & _ & Hsame & _); [|done..].
  split; [|done]. rewrite (absent_model hash) by done. subst ok.
  destruct allow_update; simpl.
  - split; [done|]. by intros [? _].
  - case_bool_decide; split; try done; intros; by destruct_and?.
Qed.

(** X4.  [insert] on a key that has an entry, with [allow_update] true,
    overwrites the value in place: every bucket keeps the same keys in the
    same order, and the size and the capacity are unchanged. *)
Theorem insert_update_in_place self key value depth ok self' :
  reachable hash self → ¬ absent self key →
  HT.insert hash depth self key value true = Ok (ok, self') →
  ok = true ∧
  HT.get hash self' key = Ok value ∧
  (λ b : list (string * Any Obj), b.*1) <$> HT._buckets self'
  = (λ b : list (string * Any Obj), b.*1) <$> HT._buckets self ∧
  HT._size self' = HT._size self ∧
  HT._capacity self' = HT._capacity self.
Proof.
  intros [Hwf Hbal]%reachable_inv Hpres Hins.
  rewrite (absent_model hash) in Hpres by done.
  destruct (model self !! key) as [v0|] eqn:Hm; [clear Hpres|done].
  destruct depth as [|d]; [done|].
  destruct (bucket_wf hash self key Hwf) as (b & Hb & Hbk).
  rewrite (model_lookup hash self key b Hwf Hb), list_to_map_lookup_scan in Hm.
  destruct (HT.scan key b) as [[i [k0 w0]]|] eqn:Hscan; [|done].
  destruct (update_spec hash self key value b i _ Hwf Hb Hscan) as [Hwf1 Hm1].
  rewrite insert_S, Hbk in Hins. simpl in Hins. rewrite Hscan in Hins.
  simplify_eq. split_and!; try done.
  - by rewrite get_spec, Hm1, lookup_insert_eq.
  - simpl. apply scan_Some in Hscan as [Hi Hk]. simpl in Hk. subst k0.
    rewrite list_fmap_insert, (keys_update _ _ _ w0) by done.
    apply list_insert_id. by rewrite list_lookup_fmap, Hb.
Qed.

(** X5.  Inserting a key again after deleting it behaves as a first
    insert: it succeeds even with [allow_update] false, [get] returns the
    new value, and the length is one more than after the delete. *)
Theorem insert_after_delete self key value allow_update depth ok1 self1 ok2 self2 :
  reachable hash self →
  HT.delete hash self key = Ok (ok1, self1) →
  HT.insert hash depth self1 key value allow_update = Ok (ok2, self2) →
  ok2 = true ∧
  HT.get hash self2 key = Ok value ∧
  HT.__len__ self2 = (HT.__len__ self1 + 1)%Z.
Proof.
  intros Hreach Hdel Hins.
  pose proof (reachable_delete hash _ _ _ _ Hreach Hdel) as Hr1.
  apply reachable_inv in Hr1 as [Hwf1 Hbal1].
  apply reachable_inv in Hreach as [Hwf Hbal].
  destruct (delete_spec hash self key Hwf) as (s & Hdel' & _ & Hm & _).
  rewrite Hdel in Hdel'. simplify_eq.
  apply insert_sound in Hins as (Hwf2 & _ & Hok & Hm2 & _ & Hs & _); [|done..].
  rewrite Hm, lookup_delete_eq in Hok, Hs.
  rewrite bool_decide_eq_true_2 in Hok, Hs by done.
  rewrite orb_true_r in Hok. subst ok2.
  split_and!; [done| |done]. by rewrite get_spec, Hm2, lookup_insert_eq.
Qed.

(** X6.  A freshly constructed table, whatever capacity was asked for, is
    empty: [get] returns [None], [contains] is false and [delete] returns
    failure for every key, it has length 0 and yields no items. *)
Theorem fresh_table_empty capacity key :
  HT.get hash (HT.__init__ capacity : HT.t Obj) key = Ok PyNone ∧
  HT.contains hash (HT.__init__ capacity : HT.t Obj) key = Ok false ∧
  HT.delete hash (HT.__init__ capacity : HT.t Obj) key
  = Ok (false, HT.__init__ capacity) ∧
  HT.__len__ (HT.__init__ capacity : HT.t Obj) = 0%Z ∧
  HT.items (HT.__init__ capacity : HT.t Obj) = [].
Proof.
  destruct (wf_init hash (Obj:=Obj) capacity) as (Hwf & Hm & _ & Hs).
  destruct (delete_spec hash _ key Hwf) as (s & Hdel & _ & _ & _ & _ & Hsame).
  rewrite Hm, lookup_empty in Hdel, Hsame. rewrite Hsame in Hdel by done.
  rewrite bool_decide_eq_false_2 in Hdel by (by intros [? ?]).
  rewrite contains_spec, get_spec, Hm, lookup_empty by done.
  split_and!; try done.
  pose proof (wf_size _ _ Hwf) as Hlen. rewrite Hs in Hlen.
  destruct (HT.items _); [done|simpl in Hlen; lia].
Qed.

(** X7.  The capacity never shrinks: after any history it is at least the
    capacity at construction, and no single [insert] or [delete] on a
    reachable table lowers it. *)
Theorem capacity_never_shrinks :
  (∀ depth capacity (ops : list (op (Obj:=Obj))) self,
     run hash depth capacity ops = Ok self →
     (Z.max 5 capacity ≤ HT._capacity self)%Z) ∧
  (∀ depth self o self',
     reachable hash self → step hash depth self o = Ok self' →
     (HT._capacity self ≤ HT._capacity self')%Z).
Proof.
  assert (∀ depth self o self',
            wf hash self → balanced self → step hash depth self o = Ok self' →
            (HT._capacity self ≤ HT._capacity self')%Z) as Hstep.
  { intros depth self [key value au|key] self' Hwf Hbal Hs; cbn [step] in Hs;
      apply bind_Ok in Hs as ([ok s] & Hop & [= <-]).
    - apply insert_sound in Hop as (_ & _ & _ & _ & _ & _ & Hc); [|done..].
      simpl. rewrite Hc. pose proof (wf_capacity _ _ Hwf).
      destruct (_ && _); lia.
    - destruct (delete_spec hash self key Hwf) as (s' & Hdel & _ & _ & Hc & _).
      rewrite Hdel in Hop. simplify_eq. simpl. lia. }
  split.
  - intros depth capacity ops.
    induction ops as [|o ops IH] using rev_ind; intros self Hrun.
    + injection Hrun as <-. simpl. lia.
    + rewrite run_snoc in Hrun. apply bind_Ok in Hrun as (s0 & Hrun & Hs).
      destruct (run_inv hash _ _ _ _ Hrun) as (Hwf & Hbal & _).
      specialize (IH _ Hrun). specialize (Hstep _ _ _ _ Hwf Hbal Hs). lia.
  - intros depth self o self' [Hwf Hbal]%reachable_inv. by apply Hstep.
Qed.

(** X8.  Right after a resize the table is at most half full: when an
    [insert] on a reachable table changes the capacity, twice the new size
    is at most the new capacity. *)
Theorem resize_leaves_room self key value allow_update depth ok self' :
  reachable hash self →
  HT.insert hash depth self key value allow_update = Ok (ok, self') →
  HT._capacity self' ≠ HT._capacity self →
  (2 * HT._size self' ≤ HT._capacity self')%Z.
Proof.
  intros [Hwf Hbal]%reachable_inv Hins Hcap.
  apply insert_sound in Hins as (_ & _ & _ & _ & _ & Hs & Hc); [|done..].
  pose proof (wf_capacity _ _ Hwf). unfold balanced in Hbal.
  rewrite Hc in Hcap |- *. rewrite Hs.
  destruct (bool_decide (model self !! key = None)); simpl in *; [|done].
  destruct (bool_decide _); [lia|done].
Qed.

(** X9.  [items] yields exactly the stored pairs, each key once: a pair is
    yielded iff it is the entry of its key, [get] returns the value of every
    yielded pair, a key that is not yielded gets [None], and the number of
    pairs is the length of the table. *)
Theorem items_are_the_entries self :
  reachable hash self →
  NoDup (HT.items self).*1 ∧
  Z.of_nat (length (HT.items self)) = HT.__len__ self ∧
  (∀ k v, (k, v) ∈ HT.items self → HT.get hash self k = Ok v) ∧
  (∀ k, k ∉ (HT.items self).*1 → HT.get hash self k = Ok PyNone).
Proof.
  intros [Hwf Hbal]%reachable_inv. split_and!.
  - by apply (wf_items_NoDup hash).
  - symmetry. apply (wf_size _ _ Hwf).
  - intros k v Hin. apply (elem_of_items_model hash) in Hin; [|done].
    by rewrite get_spec, Hin.
  - intros k Hk. rewrite get_spec by done.
    unfold model. by rewrite (not_elem_of_list_to_map_1 _ _ Hk).
Qed.

End TableExtras.

(** * The inventory with object identity *)

(** ** Sorting by key *)

Section Sorting.
Context {A : Type} (key : A → string).

Lemma insert_sorted_Permutation x l : insert_sorted key x l ≡ₚ x :: l.
Proof.
  induction l as [|y l IH]; simpl; [done|].
  destruct (String.leb (key x) (key y)); [done|].
  rewrite IH. apply Permutation_swap.
Qed.

Lemma sorted_Permutation l : sorted key l ≡ₚ l.
Proof.
  unfold sorted. induction l as [|x l IH]; simpl; [done|].
  by rewrite insert_sorted_Permutation, IH.
Qed.

Lemma Sorted_insert_sorted x l :
  Sorted (λ a b, String.leb (key a) (key b) = true) l →
  Sorted (λ a b, String.leb (key a) (key b) = true) (insert_sorted key x l).
Proof.
  induction 1 as [|y l Hl IH Hy]; simpl.
  { repeat constructor. }
  destruct (String.leb (key x) (key y)) eqn:Hxy.
  - repeat constructor; done.
  - constructor; [done|].
    destruct (String.leb_total (key x) (key y)) as [?|Hyx]; [congruence|].
    destruct Hy as [|z l' Hyz]; simpl.
    + by constructor.
    + destruct (String.leb (key x) (key z)); by constructor.
Qed.

Lemma Sorted_sorted l :
  Sorted (λ a b, String.leb (key a) (key b) = true) (sorted key l).
Proof.
  unfold sorted. induction l as [|x l IH]; simpl; [constructor|].
  by apply Sorted_insert_sorted.
Qed.

End Sorting.

(** ** Removing the first match *)

Lemma filter_all {A} (P : A → Prop) `{∀ x, Decision (P x)} (l : list A) :
  (∀ x, x ∈ l → P x) → filter P l = l.
Proof.
  induction l as [|x l IH]; intros Hall; [done|].
  rewrite filter_cons_True by (apply Hall; by left).
  f_equal. apply IH. intros y Hy. apply Hall. by right.
Qed.

Lemma delete_first_match {A} (f : A → string) (k : string) (l : list A) i x :
  NoDup (f <$> l) →
  list_find (λ y, f y = k) l = Some (i, x) →
  base.delete i l = filter (λ y, f y ≠ k) l.
Proof.
  revert i. induction l as [|y l IH]; intros i Hnd Hfind; [done|].
  rewrite fmap_cons in Hnd. apply NoDup_cons in Hnd as [Hy Hnd].
  cbn [list_find] in Hfind. destruct (decide (f y = k)) as [Hk|Hk].
  - simplify_eq/=. rewrite filter_cons_False by (by intros ?).
    symmetry. apply filter_all. intros z Hz Heq. apply Hy.
    rewrite <-Heq. apply list_elem_of_fmap. eauto.
  - destruct (list_find _ l) as [[j z]|] eqn:Hl; simplify_eq/=.
    rewrite filter_cons_True by done. f_equal. by eapply IH.
Qed.

Lemma omap_object_objects (l : list Inventory.ref) :
  omap Inventory.object (PyObj <$> l) = l.
Proof. induction l as [|r l IH]; csimpl; [done|]. by rewrite IH. Qed.

Lemma sku_edit_fields {Arg E} (float : Arg → Inventory.conversion E Q)
    (int : Arg → Inventory.conversion E Z)
    new_name new_category new_price new_stock (o : Product) :
  sku (Inventory.edit_fields float int new_name new_category new_price
         new_stock o).1 = sku o.
Proof.
  unfold Inventory.edit_fields, Inventory.assign_stock.
  destruct new_name, new_category, new_price as [x|], new_stock as [y|];
    try destruct (float x); try destruct (int y); done.
Qed.

Lemma fresh_items {Obj} capacity :
  HT.items (HT.__init__ capacity : HT.t Obj) = [].
Proof.
  unfold HT.items, HT.__init__. simpl.
  induction (Z.to_nat (Z.max 5 capacity)); simpl; done.
Qed.

(** ** Consistency of the table and the array *)

Section InventoryProofs.
Variable hash : string → Z.
Implicit Types (self : Inventory.t) (p r : Inventory.ref).

Lemma consistent_model self :
  consistent hash self ↔
  reachable hash (Inventory.table self) ∧
  NoDup ((λ r, sku (Inventory.heap self r)) <$> Inventory.array self) ∧
  ∀ k v, model (Inventory.table self) !! k = Some v ↔
         ∃ r, r ∈ Inventory.array self ∧
              k = sku (Inventory.heap self r) ∧ v = PyObj r.
Proof.
  unfold consistent. split; intros (Hr & Hnd & Hm); split_and!; try done;
    intros k v; pose proof (reachable_inv hash _ Hr) as [Hwf _].
  - by rewrite <-(elem_of_items_model hash), Hm.
  - by rewrite (elem_of_items_model hash), Hm.
Qed.

Lemma consistent_fresh self k :
  consistent hash self →
  model (Inventory.table self) !! k = None ↔
  k ∉ (λ r, sku (Inventory.heap self r)) <$> Inventory.array self.
Proof.
  intros (_ & _ & Hm)%consistent_model. rewrite eq_None_not_Some. split.
  - intros Hnone (r & -> & Hr)%list_elem_of_fmap. apply Hnone.
    exists (PyObj r). apply Hm. eauto.
  - intros Hk [v (r & Hr & -> & _)%Hm]. apply Hk.
    apply list_elem_of_fmap. eauto.
Qed.

Lemma consistent_items self :
  consistent hash self →
  HT.items (Inventory.table self)
  ≡ₚ (λ r, (sku (Inventory.heap self r), PyObj r)) <$> Inventory.array self.
Proof.
  intros (Hr & Hnd & Hm). pose proof (reachable_inv hash _ Hr) as [Hwf _].
  apply NoDup_Permutation.
  - eapply NoDup_fmap_1. by apply (wf_items_NoDup hash).
  - apply (NoDup_fmap_1 fst). by rewrite <-list_fmap_compose.
  - intros [k v]. rewrite Hm, list_elem_of_fmap. split.
    + intros (r & Hin & -> & ->). eauto.
    + intros (r & [= -> ->] & Hin). eauto.
Qed.

Lemma consistent_length self :
  consistent hash self →
  HT.__len__ (Inventory.table self) = Z.of_nat (length (Inventory.array self)).
Proof.
  intros Hc. pose proof (consistent_items self Hc) as Hperm.
  destruct Hc as (Hr & _). pose proof (reachable_inv hash _ Hr) as [Hwf _].
  unfold HT.__len__. rewrite (wf_size _ _ Hwf), Hperm. by rewrite length_fmap.
Qed.

Lemma find_sku_Some self k r :
  NoDup ((λ r, sku (Inventory.heap self r)) <$> Inventory.array self) →
  r ∈ Inventory.array self → sku (Inventory.heap self r) = k →
  ∃ i, list_find (λ item, sku (Inventory.heap self item) = k) (Inventory.array self)
       = Some (i, r).
Proof.
  intros Hnd Hin Hk.
  destruct (list_find_elem_of (λ item, sku (Inventory.heap self item) = k)
              (Inventory.array self) r Hin Hk) as [[i r'] Hfind].
  exists i. rewrite Hfind. do 2 f_equal.
  apply list_find_Some in Hfind as (Hi & Hk' & _).
  apply list_elem_of_lookup in Hin as [j Hj].
  assert (i = j) as ->; [|congruence].
  eapply NoDup_lookup; [exact Hnd| |]; rewrite list_lookup_fmap.
  - by rewrite Hi.
  - rewrite Hj. simpl. congruence.
Qed.

Lemma search_spec self k :
  consistent hash self →
  Inventory.search_by_sku hash self k
  = Ok (match list_find (λ item, sku (Inventory.heap self item) = k)
                (Inventory.array self) with
        | Some (_, r) => PyObj r
        | None => PyNone
        end).
Proof.
  intros Hc. pose proof Hc as (Hr & Hnd & Hm)%consistent_model.
  pose proof (reachable_inv hash _ Hr) as [Hwf _].
  unfold Inventory.search_by_sku. rewrite get_spec by done. f_equal.
  destruct (list_find _ _) as [[i r]|] eqn:Hfind.
  - apply list_find_Some in Hfind as (Hi & Hk & _).
    assert (model (Inventory.table self) !! k = Some (PyObj r)) as ->; [|done].
    apply Hm. exists r. split_and!; [by eapply list_elem_of_lookup_2|done..].
  - apply list_find_None in Hfind. rewrite Forall_forall in Hfind.
    destruct (model _ !! k) as [v|] eqn:Hk; [|done].
    apply Hm in Hk as (r & Hin & -> & _). by destruct (Hfind r Hin).
Qed.

Lemma consistent_append self p t' :
  consistent hash self →
  reachable hash t' →
  model t' = <[sku (Inventory.heap self p):=PyObj p]> (model (Inventory.table self)) →
  sku (Inventory.heap self p)
  ∉ (λ r, sku (Inventory.heap self r)) <$> Inventory.array self →
  consistent hash
    (Inventory.Build (Inventory.heap self) (Inventory.next self) t'
       (Inventory.array self ++ [p])).
Proof.
  intros (Hr & Hnd & Hm)%consistent_model Hr' Hm' Hfresh.
  apply consistent_model. simpl. split_and!; [done| |].
  - rewrite fmap_app. apply NoDup_app. split_and!; [done| |apply NoDup_singleton].
    by intros k Hk ->%list_elem_of_singleton.
  - intros k v. rewrite Hm', lookup_insert_Some, Hm. split.
    + intros [[<- <-]|[Hne (r & Hin & -> & ->)]].
      * exists p. split_and!; [|done..]. apply elem_of_app. right. by left.
      * exists r. split_and!; [|done..]. apply elem_of_app. by left.
    + intros (r & [Hin| ->%list_elem_of_singleton]%elem_of_app & -> & ->).
      * right. split; [|eauto]. intros Heq. apply Hfresh.
        apply list_elem_of_fmap. eauto.
      * by left.
Qed.

(** X10.  On a consistent inventory [insert_product(p)] returns; it
    succeeds exactly when no product of the array has the SKU of [p]; on
    success [p] is appended to the array and [search_by_sku] finds it under
    its SKU; on failure nothing changes; either way the inventory stays
    consistent and no object is modified. *)
Theorem insert_product_spec d self p :
  consistent hash self →
  ∃ ok self',
    Inventory.insert_product hash (S (S d)) self p = Ok (ok, self') ∧
    consistent hash self' ∧
    Inventory.heap self' = Inventory.heap self ∧
    (ok = true ↔
       sku (Inventory.heap self p)
       ∉ (λ r, sku (Inventory.heap self r)) <$> Inventory.array self) ∧
    (ok = true →
       Inventory.array self' = Inventory.array self ++ [p] ∧
       Inventory.search_by_sku hash self' (sku (Inventory.heap self p))
       = Ok (PyObj p)) ∧
    (ok = false → self' = self).
Proof.
  intros Hc. pose proof Hc as (Hr & Hnd & Hm)%consistent_model.
  pose proof (reachable_inv hash _ Hr) as [Hwf Hbal].
  pose proof (consistent_fresh self (sku (Inventory.heap self p)) Hc) as Hfresh.
  destruct (insert_total hash d (Inventory.table self)
              (sku (Inventory.heap self p)) (PyObj p) false Hwf Hbal)
    as (ok & t' & Hins & Hwf' & _ & Hok & Hm' & Hsame & _).
  simpl in Hok. unfold Inventory.insert_product. rewrite Hins. simpl.
  destruct ok.
  - symmetry in Hok. apply bool_decide_eq_true in Hok.
    eexists true, _. split; [done|].
    assert (consistent hash
              (Inventory.Build (Inventory.heap self) (Inventory.next self) t'
                 (Inventory.array self ++ [p]))) as Hc'.
    { apply consistent_append; [done| |done|by apply Hfresh].
      by eapply reachable_insert. }
    split_and!; try done.
    + split; [intros _; by apply Hfresh|done].
    + intros _. split; [done|].
      unfold Inventory.search_by_sku. simpl.
      by rewrite get_spec, Hm', lookup_insert_eq.
  - rewrite (Hsame eq_refl). destruct self as [h n t a]. simpl in *.
    eexists false, _. split; [done|]. split_and!; try done.
    split; [done|]. intros Hk%Hfresh.
    symmetry in Hok. apply bool_decide_eq_false in Hok. done.
Qed.

(** X11.  On a consistent inventory the table and the array hold the same
    number of products, and [search_by_sku] returns the product of the
    array that has the SKU, or [None] when there is none. *)
Theorem search_by_sku_spec self k :
  consistent hash self →
  HT.__len__ (Inventory.table self) = Z.of_nat (length (Inventory.array self)) ∧
  (∀ r, r ∈ Inventory.array self → sku (Inventory.heap self r) = k →
        Inventory.search_by_sku hash self k = Ok (PyObj r)) ∧
  (k ∉ (λ r, sku (Inventory.heap self r)) <$> Inventory.array self →
   Inventory.search_by_sku hash self k = Ok PyNone).
Proof.
  intros Hc. split_and!.
  - by apply consistent_length.
  - intros r Hin Hk. pose proof Hc as (_ & Hnd & _).
    destruct (find_sku_Some self k r Hnd Hin Hk) as [i Hfind].
    by rewrite search_spec, Hfind.
  - intros Hk. rewrite search_spec by done.
    destruct (list_find _ _) as [[i r]|] eqn:Hfind; [|done].
    apply list_find_Some in Hfind as (Hi & Hk' & _). destruct Hk.
    apply list_elem_of_fmap. exists r. split; [done|].
    by eapply list_elem_of_lookup_2.
Qed.

(** X12.  [edit_product] on a SKU that [search_by_sku] finds changes the
    one object found, in place: the name and the category are set as given;
    the price is set to what [float] converts the argument to; the stock is
    set to what [int] converts the argument to, unless the conversion of
    the price has raised.  It returns [True] when no conversion raises, and
    otherwise the exception propagates with the assignments made before it
    kept.  In every case the SKU, every other object, the table and the
    array are untouched, so the edit is seen through both containers and
    the inventory stays consistent.  On a SKU that is not found it returns
    [False] and changes nothing. *)
Theorem edit_product_spec {Arg E} (float : Arg → Inventory.conversion E Q)
    (int : Arg → Inventory.conversion E Z)
    self sku0 new_name new_category (new_price new_stock : option Arg) :
  consistent hash self →
  (∀ r, Inventory.search_by_sku hash self sku0 = Ok (PyObj r) →
     ∃ out self',
       Inventory.edit_product hash float int self sku0 new_name new_category
         new_price new_stock = Ok (out, self') ∧
       consistent hash self' ∧
       Inventory.table self' = Inventory.table self ∧
       Inventory.array self' = Inventory.array self ∧
       r ∈ Inventory.array self' ∧
       Inventory.search_by_sku hash self' sku0 = Ok (PyObj r) ∧
       sku (Inventory.heap self' r) = sku0 ∧
       (∀ r', r' ≠ r → Inventory.heap self' r' = Inventory.heap self r') ∧
       name (Inventory.heap self' r)
       = default (name (Inventory.heap self r)) new_name ∧
       category (Inventory.heap self' r)
       = default (category (Inventory.heap self r)) new_category ∧
       price (Inventory.heap self' r)
       = match new_price with
         | Some x =>
             match float x with
             | Inventory.Converts q => q
             | Inventory.Fails _ => price (Inventory.heap self r)
             end
         | None => price (Inventory.heap self r)
         end ∧
       (∀ x e, new_price = Some x → float x = Inventory.Fails e →
          out = Inventory.Propagates e ∧
          stock (Inventory.heap self' r) = stock (Inventory.heap self r)) ∧
       ((∀ x e, new_price = Some x → float x ≠ Inventory.Fails e) →
          stock (Inventory.heap self' r)
          = match new_stock with
            | Some y =>
                match int y with
                | Inventory.Converts n => n
                | Inventory.Fails _ => stock (Inventory.heap self r)
                end
            | None => stock (Inventory.heap self r)
            end ∧
          out
          = match new_stock with
            | Some y =>
                match int y with
                | Inventory.Converts _ => Inventory.Returns true
                | Inventory.Fails e => Inventory.Propagates e
                end
            | None => Inventory.Returns true
            end)) ∧
  (Inventory.search_by_sku hash self sku0 = Ok PyNone →
   Inventory.edit_product hash float int self sku0 new_name new_category
     new_price new_stock = Ok (Inventory.Returns false, self)).
Proof.
  intros Hc. split.
  - intros r Hfound. pose proof Hc as (Hr & Hnd & Hm)%consistent_model.
    pose proof (reachable_inv hash _ Hr) as [Hwf _].
    assert (r ∈ Inventory.array self ∧ sku0 = sku (Inventory.heap self r))
      as [Hin Hsku].
    { unfold Inventory.search_by_sku in Hfound. rewrite get_spec in Hfound by done.
      destruct (model _ !! sku0) as [v|] eqn:Hk; simplify_eq/=.
      apply Hm in Hk as (r' & ? & ? & ?). by simplify_eq. }
    unfold Inventory.edit_product. unfold Inventory.search_by_sku in Hfound.
    rewrite Hfound. cbn [mbind result_bind].
    eexists _, _. split; [done|]. cbn [Inventory.heap Inventory.table Inventory.array].
    assert (∀ r', sku (if decide (r' = r)
                       then (Inventory.edit_fields float int new_name new_category
                               new_price new_stock (Inventory.heap self r)).1
                       else Inventory.heap self r')
                  = sku (Inventory.heap self r')) as Hskus.
    { intros r'. case_decide; [subst; apply sku_edit_fields|done]. }
    rewrite decide_True by done.
    split_and!; try done.
    + unfold consistent. simpl. split_and!; [done| |].
      * erewrite list_fmap_ext; [exact Hnd|]. intros i r' _. apply Hskus.
      * intros k v. destruct Hc as (_ & _ & Hmir). rewrite Hmir.
        split; intros (r' & ? & ? & ?); exists r'; by rewrite Hskus in *.
    + by rewrite sku_edit_fields.
    + intros r' Hne. by rewrite decide_False.
    + unfold Inventory.edit_fields, Inventory.assign_stock.
      destruct new_name, new_category, new_price as [x|], new_stock as [y|];
        try destruct (float x); try destruct (int y); done.
    + unfold Inventory.edit_fields, Inventory.assign_stock.
      destruct new_name, new_category, new_price as [x|], new_stock as [y|];
        try destruct (float x); try destruct (int y); done.
    + unfold Inventory.edit_fields, Inventory.assign_stock.
      destruct new_name, new_category, new_price as [x|], new_stock as [y|];
        try destruct (float x); try destruct (int y); done.
    + intros x e -> Hf. unfold Inventory.edit_fields. rewrite Hf.
      by destruct new_name, new_category.
    + intros Hconv. unfold Inventory.edit_fields, Inventory.assign_stock.
      destruct new_price as [x|].
      * destruct (float x) as [q|e] eqn:Hf; [|by destruct (Hconv x e)].
        destruct new_name, new_category, new_stock as [y|];
          try destruct (int y); done.
      * destruct new_name, new_category, new_stock as [y|];
          try destruct (int y); done.
  - intros Hnone. unfold Inventory.edit_product.
    unfold Inventory.search_by_sku in Hnone. by rewrite Hnone.
Qed.

(** X13.  On a consistent inventory [delete_product(sku)] returns; it
    succeeds exactly when a product of the array has the SKU; afterwards
    the array is the old one without that product, [search_by_sku] of the
    SKU returns [None], the inventory is consistent and no object is
    modified; on failure nothing changes. *)
Theorem delete_product_spec self sku0 :
  consistent hash self →
  ∃ ok self',
    Inventory.delete_product hash self sku0 = Ok (ok, self') ∧
    consistent hash self' ∧
    Inventory.heap self' = Inventory.heap self ∧
    (ok = true ↔
       sku0 ∈ (λ r, sku (Inventory.heap self r)) <$> Inventory.array self) ∧
    Inventory.array self'
    = filter (λ r, sku (Inventory.heap self r) ≠ sku0) (Inventory.array self) ∧
    Inventory.search_by_sku hash self' sku0 = Ok PyNone ∧
    (ok = false → self' = self).
Proof.
  intros Hc. pose proof Hc as (Hr & Hnd & Hm)%consistent_model.
  pose proof (reachable_inv hash _ Hr) as [Hwf _].
  pose proof (consistent_fresh self sku0 Hc) as Hfresh.
  unfold Inventory.delete_product. rewrite get_spec by done.
  destruct (model (Inventory.table self) !! sku0) as [v|] eqn:Hk; simpl.
  - pose proof Hk as (r & Hin & Hsku & ->)%Hm.
    destruct (delete_spec hash _ sku0 Hwf) as (t' & Hdel & Hwf' & Hm' & _).
    rewrite Hdel. simpl.
    destruct (find_sku_Some self sku0 r Hnd Hin (eq_sym Hsku)) as [i Hfind].
    rewrite Hfind, (delete_first_match _ _ _ _ _ Hnd Hfind).
    eexists true, _. split; [done|]. simpl.
    assert (consistent hash
              (Inventory.Build (Inventory.heap self) (Inventory.next self) t'
                 (filter (λ r, sku (Inventory.heap self r) ≠ sku0)
                    (Inventory.array self)))) as Hc'.
    { apply consistent_model. simpl. split_and!.
      - by eapply reachable_delete.
      - eapply sublist_NoDup; [exact Hnd|]. apply fmap_sublist, sublist_filter.
      - intros k v. rewrite Hm', lookup_delete_Some, Hm. split.
        + intros (Hne & r' & Hin' & -> & ->). exists r'.
          split_and!; [|done..]. apply list_elem_of_filter. split; [|done].
          by intros ?.
        + intros (r' & [Hne Hin']%list_elem_of_filter & -> & ->).
          split; [by intros ?|eauto]. }
    split_and!; try done.
    + split; [|done]. intros _. apply list_elem_of_fmap. eauto.
    + unfold Inventory.search_by_sku. simpl.
      by rewrite get_spec, Hm', lookup_delete_eq.
  - eexists false, self. split; [done|].
    pose proof (proj1 Hfresh eq_refl) as Hk'. split_and!; try done.
    + symmetry. apply filter_all. intros r Hin Heq. apply Hk'.
      apply list_elem_of_fmap. eauto.
    + unfold Inventory.search_by_sku. rewrite get_spec by done.
      by rewrite Hk.
Qed.

(** X14.  On a consistent inventory [list_products] raises nothing and
    returns the products of the array, each once, in ascending order of
    SKU. *)
Theorem list_products_spec self :
  consistent hash self →
  ∃ l,
    Inventory.list_products self = Inventory.Listed l ∧
    l ≡ₚ Inventory.array self ∧
    Sorted (λ a b, String.leb (sku (Inventory.heap self a))
                              (sku (Inventory.heap self b)) = true) l.
Proof.
  intros Hc. pose proof (consistent_items self Hc) as Hperm.
  assert ((HT.items (Inventory.table self)).*2 ≡ₚ PyObj <$> Inventory.array self)
    as Hvals.
  { rewrite Hperm, <-list_fmap_compose. done. }
  unfold Inventory.list_products.
  assert (forallb is_not_None (HT.items (Inventory.table self)).*2 = true) as ->.
  { apply forallb_forall. intros v Hv%list_elem_of_In.
    rewrite Hvals in Hv. by apply list_elem_of_fmap in Hv as (r & -> & _). }
  eexists. split; [done|]. split.
  - by rewrite sorted_Permutation, Hvals, omap_object_objects.
  - apply Sorted_sorted.
Qed.

Lemma new_Products_spec self ps :
  (Inventory.new_Products self ps).1 = seq (Inventory.next self) (length ps) ∧
  Inventory.next (Inventory.new_Products self ps).2
  = Inventory.next self + length ps ∧
  Inventory.table (Inventory.new_Products self ps).2 = Inventory.table self ∧
  Inventory.array (Inventory.new_Products self ps).2 = Inventory.array self ∧
  Inventory.heap (Inventory.new_Products self ps).2
    <$> (Inventory.new_Products self ps).1 = ps ∧
  ∀ r, r < Inventory.next self →
       Inventory.heap (Inventory.new_Products self ps).2 r = Inventory.heap self r.
Proof.
  induction ps as [|p ps IH] using rev_ind.
  { simpl. split_and!; done. }
  destruct IH as (Hrefs & Hnext & Htable & Harray & Hheap & Hold).
  unfold Inventory.new_Products in *. rewrite foldl_snoc.
  destruct (foldl _ _ ps) as [refs s1]. simpl in *.
  rewrite length_app, seq_app, Hrefs, Hnext. simpl. split_and!; try done.
  - lia.
  - rewrite fmap_app. simpl. rewrite decide_True by done. f_equal.
    rewrite <-Hheap at 2. rewrite <-Hrefs. apply list_fmap_ext.
    intros i r Hi. rewrite Hrefs in Hi. apply lookup_seq in Hi as [-> Hlt].
    rewrite decide_False by lia. done.
  - intros r Hlt. rewrite decide_False by lia. by apply Hold.
Qed.

Lemma seed_loop d refs self :
  consistent hash self →
  NoDup ((λ r, sku (Inventory.heap self r)) <$> (Inventory.array self ++ refs)) →
  ∃ self',
    for_each (λ s p,
                HT.insert hash (S (S d)) (Inventory.table s)
                  (sku (Inventory.heap s p)) (PyObj p) true
                ≫= λ res, Ok (Inventory.Build (Inventory.heap s) (Inventory.next s)
                                res.2 (Inventory.array s ++ [p])))
             refs self = Ok self' ∧
    consistent hash self' ∧
    Inventory.array self' = Inventory.array self ++ refs ∧
    Inventory.heap self' = Inventory.heap self ∧
    Inventory.next self' = Inventory.next self.
Proof.
  revert self. induction refs as [|p refs IH]; intros self Hc Hnd.
  { exists self. simpl. by rewrite app_nil_r. }
  pose proof Hc as (Hr & _).
  pose proof (reachable_inv hash _ Hr) as [Hwf Hbal].
  assert (sku (Inventory.heap self p)
          ∉ (λ r, sku (Inventory.heap self r)) <$> Inventory.array self) as Hfresh.
  { rewrite fmap_app, fmap_cons in Hnd.
    apply NoDup_app in Hnd as (_ & Hdisj & _). intros Hin.
    apply (Hdisj _ Hin). by left. }
  destruct (insert_total hash d (Inventory.table self)
              (sku (Inventory.heap self p)) (PyObj p) true Hwf Hbal)
    as (ok & t' & Hins & _ & _ & Hok & Hm' & _).
  simpl in Hok. subst ok.
  pose proof (reachable_insert hash _ _ _ _ _ _ _ Hr Hins) as Hr'.
  pose proof (consistent_append self p t' Hc Hr' Hm' Hfresh) as Hc1.
  destruct (IH _ Hc1) as (self' & Hloop & Hc' & Ha & Hh & Hn).
  { simpl. by rewrite <-app_assoc. }
  exists self'. cbn [for_each]. rewrite Hins. cbn [mbind result_bind snd].
  rewrite Hloop. simpl in Ha, Hh, Hn. split_and!; try done.
  by rewrite Ha, <-app_assoc.
Qed.

(** X15.  [InventorySystem(capacity)] returns for every capacity, every
    hash function and every object store: the ten sample products are new
    objects, the array holds them in the order of the source, the table has
    length 10 and finds each of them under its SKU, the inventory is
    consistent, and no object that existed before is modified. *)
Theorem init_seeds_samples d heap0 next0 capacity :
  ∃ self,
    Inventory.__init__ hash (S (S d)) heap0 next0 capacity = Ok self ∧
    consistent hash self ∧
    Inventory.array self = seq next0 10 ∧
    Inventory.heap self <$> Inventory.array self = samples ∧
    HT.__len__ (Inventory.table self) = 10%Z ∧
    (∀ r, r ∈ Inventory.array self →
          Inventory.search_by_sku hash self (sku (Inventory.heap self r))
          = Ok (PyObj r)) ∧
    (∀ r, r < next0 → Inventory.heap self r = heap0 r).
Proof.
  unfold Inventory.__init__, Inventory._seed_data.
  destruct (new_Products_spec
              (Inventory.Build heap0 next0 (HT.__init__ capacity) []) samples)
    as (Hrefs & Hnext & Htable & Harray & Hheap & Hold).
  destruct (Inventory.new_Products _ samples) as [refs s1]. simpl in *.
  assert (consistent hash s1) as Hc1.
  { unfold consistent. rewrite Htable, Harray. split_and!.
    - apply reachable_init.
    - constructor.
    - intros k v. rewrite fresh_items. split.
      + by intros ?%elem_of_nil.
      + by intros (r & ?%elem_of_nil & _). }
  destruct (seed_loop d refs s1 Hc1) as (self & Hloop & Hc & Ha & Hh & Hn).
  { rewrite Harray. simpl. rewrite (list_fmap_compose (Inventory.heap s1) sku).
    rewrite Hheap. apply (bool_decide_unpack _). exact I. }
  exists self. rewrite Harray in Ha. simpl in Ha.
  split; [exact Hloop|]. split_and!; try done.
  - by rewrite Ha, Hrefs.
  - by rewrite Ha, Hh.
  - rewrite consistent_length, Ha, Hrefs by done. done.
  - intros r Hin. pose proof Hc as (_ & Hnd & _).
    destruct (find_sku_Some self _ r Hnd Hin eq_refl) as [i Hfind].
    by rewrite search_spec, Hfind.
  - intros r Hlt. rewrite Hh. by apply Hold.
Qed.

End InventoryProofs.

(** * The directed graph *)

Section GraphProofs.
Context `{Countable V}.
Implicit Types (g : DG.t (V:=V)) (u v w src dst : V) (s : gset V).

Lemma getitem_cons e g v :
  DG.getitem (e :: g) v = if decide (e.1 = v) then Some e.2 else DG.getitem g v.
Proof.
  unfold DG.getitem. cbn [list_find]. case_decide; [done|].
  by destruct (list_find _ g) as [[i x]|].
Qed.

Lemma setitem_cons e g v s :
  DG.setitem (e :: g) v s
  = if decide (e.1 = v) then (v, s) :: g else e :: DG.setitem g v s.
Proof.
  unfold DG.setitem. cbn [list_find]. case_decide; [done|].
  by destruct (list_find _ g) as [[i x]|].
Qed.

Lemma has_key_true g v : DG.has_key g v = true ↔ v ∈ g.*1.
Proof. unfold DG.has_key. apply bool_decide_eq_true. Qed.

Lemma has_key_false g v : DG.has_key g v = false ↔ v ∉ g.*1.
Proof. unfold DG.has_key. apply bool_decide_eq_false. Qed.

Lemma getitem_None g v : DG.getitem g v = None ↔ v ∉ g.*1.
Proof.
  induction g as [|e g IH].
  { split; [intros _ Hin; by apply elem_of_nil in Hin|done]. }
  rewrite getitem_cons, fmap_cons, not_elem_of_cons. case_decide.
  - split; [done|]. by intros [? _].
  - rewrite IH. split; [by intros ?|by intros [_ ?]].
Qed.

Lemma getitem_Some_key g v s : DG.getitem g v = Some s → v ∈ g.*1.
Proof.
  intros Hs. destruct (decide (v ∈ g.*1)) as [|Hn]; [done|].
  apply getitem_None in Hn. congruence.
Qed.

Lemma getitem_key g v : v ∈ g.*1 → ∃ s, DG.getitem g v = Some s.
Proof.
  intros Hv. destruct (DG.getitem g v) as [s|] eqn:Hs; [eauto|].
  by apply getitem_None in Hs.
Qed.

Lemma getitem_setitem g v s u :
  DG.getitem (DG.setitem g v s) u
  = if decide (u = v) then Some s else DG.getitem g u.
Proof.
  induction g as [|e g IH].
  - unfold DG.setitem, DG.getitem. cbn [list_find app]. simpl.
    repeat case_decide; by simplify_eq.
  - rewrite setitem_cons. destruct (decide (e.1 = v)) as [He|He].
    + rewrite !getitem_cons. simpl. subst v.
      repeat case_decide; by simplify_eq.
    + rewrite !getitem_cons, IH. repeat case_decide; by simplify_eq.
Qed.

Lemma keys_setitem g v s :
  (DG.setitem g v s).*1 = if decide (v ∈ g.*1) then g.*1 else g.*1 ++ [v].
Proof.
  induction g as [|e g IH].
  - rewrite decide_False by (intros Hin; by apply elem_of_nil in Hin). done.
  - rewrite setitem_cons, !fmap_cons. destruct (decide (e.1 = v)) as [He|He].
    + rewrite decide_True by (subst; by left). by rewrite fmap_cons, He.
    + rewrite fmap_cons, IH. case_decide.
      * rewrite decide_True by (by right). done.
      * rewrite decide_False; [done|]. by intros [?|?]%elem_of_cons.
Qed.

Lemma getitem_elem g u s :
  is_dict g → DG.getitem g u = Some s ↔ (u, s) ∈ g.
Proof.
  unfold is_dict. induction g as [|[k x] g IH]; intros Hnd.
  - split; [done|by intros ?%elem_of_nil].
  - rewrite fmap_cons in Hnd. apply NoDup_cons in Hnd as [Hk Hnd].
    rewrite getitem_cons, elem_of_cons, <-(IH Hnd). simpl. case_decide.
    + subst k. split; [intros [= ->]; by left|]. intros [[= ->]|Hs]; [done|].
      by apply getitem_Some_key in Hs.
    + split; [by right|]. intros [[= -> ->]|?]; done.
Qed.

Lemma is_dict_setitem g v s : is_dict g → is_dict (DG.setitem g v s).
Proof.
  unfold is_dict. rewrite keys_setitem. case_decide; [done|]. intros Hnd.
  apply NoDup_app. split_and!; [done| |apply NoDup_singleton].
  by intros k Hk ->%list_elem_of_singleton.
Qed.

(** [addVertex] on the level of lookups. *)
Lemma getitem_addVertex g v u :
  DG.getitem (DG.addVertex g v) u
  = if decide (u = v) then Some (default ∅ (DG.getitem g v)) else DG.getitem g u.
Proof.
  unfold DG.addVertex. destruct (DG.has_key g v) eqn:Hk.
  - apply has_key_true, getitem_key in Hk as [s Hs]. rewrite Hs. simpl.
    case_decide; by subst.
  - apply has_key_false, getitem_None in Hk. rewrite getitem_setitem, Hk. done.
Qed.

Lemma keys_addVertex g v :
  (DG.addVertex g v).*1 = if decide (v ∈ g.*1) then g.*1 else g.*1 ++ [v].
Proof.
  unfold DG.addVertex. destruct (DG.has_key g v) eqn:Hk.
  - apply has_key_true in Hk. by rewrite decide_True.
  - apply has_key_false in Hk. by rewrite keys_setitem.
Qed.

Lemma is_dict_addVertex g v : is_dict g → is_dict (DG.addVertex g v).
Proof.
  unfold DG.addVertex. destruct (DG.has_key g v); [done|]. apply is_dict_setitem.
Qed.

Lemma addVertex_guard g v :
  (if DG.has_key g v then g else DG.addVertex g v) = DG.addVertex g v.
Proof. unfold DG.addVertex. by destruct (DG.has_key g v). Qed.

(** [hasEdge] never raises and reads the set of the source. *)
Lemma hasEdge_getitem g src dst :
  DG.hasEdge g src dst = Some (bool_decide (dst ∈ default ∅ (DG.getitem g src))).
Proof.
  unfold DG.hasEdge. destruct (DG.has_key g src) eqn:Hk.
  - apply has_key_true, getitem_key in Hk as [s Hs]. by rewrite Hs.
  - apply has_key_false, getitem_None in Hk. rewrite Hk. simpl.
    by rewrite bool_decide_eq_false_2 by set_solver.
Qed.

(** [addEdge] on the level of lookups. *)
Lemma addEdge_getitem g src dst :
  ∃ g',
    DG.addEdge g src dst = Some g' ∧
    g'.*1 = (DG.addVertex (DG.addVertex g src) dst).*1 ∧
    (is_dict g → is_dict g') ∧
    ∀ u, DG.getitem g' u
         = if decide (u = src) then Some (default ∅ (DG.getitem g src) ∪ {[dst]})
           else if decide (u = dst) then Some (default ∅ (DG.getitem g dst))
           else DG.getitem g u.
Proof.
  unfold DG.addEdge. rewrite !addVertex_guard.
  set (g2 := DG.addVertex (DG.addVertex g src) dst).
  assert (DG.getitem g2 src = Some (default ∅ (DG.getitem g src))) as Hsrc.
  { unfold g2. rewrite getitem_addVertex.
    destruct (decide (src = dst)) as [->|Hne];
      rewrite getitem_addVertex, decide_True by done; done. }
  rewrite Hsrc. simpl. eexists. split; [done|]. split_and!.
  - rewrite keys_setitem. rewrite decide_True; [done|].
    by eapply getitem_Some_key.
  - intros Hd. by apply is_dict_setitem, is_dict_addVertex, is_dict_addVertex.
  - intros u. rewrite getitem_setitem. case_decide; [done|].
    unfold g2. rewrite !getitem_addVertex.
    case_decide; [|by rewrite decide_False]. subst u.
    by rewrite decide_False by done.
Qed.

Lemma closed_adj g u w :
  is_dict g → closed g → w ∈ default ∅ (DG.getitem g u) → w ∈ g.*1.
Proof.
  intros Hd Hc Hw. destruct (DG.getitem g u) as [s|] eqn:Hs; simpl in Hw.
  - apply getitem_elem in Hs; [|done]. by eapply Hc.
  - by apply not_elem_of_empty in Hw.
Qed.

Lemma keys_addVertex_subseteq g v u : u ∈ g.*1 → u ∈ (DG.addVertex g v).*1.
Proof.
  intros Hu. rewrite keys_addVertex. case_decide; [done|].
  apply elem_of_app. by left.
Qed.

Lemma keys_addVertex_self g v : v ∈ (DG.addVertex g v).*1.
Proof.
  rewrite keys_addVertex. case_decide; [done|].
  apply elem_of_app. right. by left.
Qed.

(** X17.  [addVertex] adds the vertex at the end of [listVertices] if it
    is new and changes nothing otherwise: it never adds or removes an edge,
    doing it twice is doing it once, and a new vertex follows nobody. *)
Theorem addVertex_spec g v :
  (is_dict g → is_dict (DG.addVertex g v)) ∧
  DG.listVertices (DG.addVertex g v)
  = (if decide (v ∈ DG.listVertices g) then DG.listVertices g
     else DG.listVertices g ++ [v]) ∧
  (∀ a b, DG.hasEdge (DG.addVertex g v) a b = DG.hasEdge g a b) ∧
  DG.addVertex (DG.addVertex g v) v = DG.addVertex g v ∧
  (v ∉ DG.listVertices g →
   DG.listOutgoingAdjacentVertex (DG.addVertex g v) v = []).
Proof.
  split_and!.
  - apply is_dict_addVertex.
  - apply keys_addVertex.
  - intros a b. rewrite !hasEdge_getitem, getitem_addVertex.
    case_decide; [by subst|done].
  - unfold DG.addVertex at 1.
    by rewrite (proj2 (has_key_true _ _) (keys_addVertex_self g v)).
  - intros Hv. unfold DG.listOutgoingAdjacentVertex.
    rewrite getitem_addVertex, decide_True by done.
    apply getitem_None in Hv. rewrite Hv. simpl. apply elements_empty.
Qed.

(** X18.  [addEdge(src, dst)] never raises; afterwards the edge is there,
    every other pair is an edge iff it was one before, and the vertices are
    the old ones followed by [src] and then [dst] where they are new. *)
Theorem addEdge_spec g src dst :
  ∃ g',
    DG.addEdge g src dst = Some g' ∧
    (is_dict g → is_dict g') ∧
    DG.hasEdge g' src dst = Some true ∧
    (∀ a b, (a, b) ≠ (src, dst) → DG.hasEdge g' a b = DG.hasEdge g a b) ∧
    DG.listVertices g'
    = DG.listVertices g
      ++ (if decide (src ∈ DG.listVertices g) then [] else [src])
      ++ (if decide (dst ∈ DG.listVertices g ∨ dst = src) then [] else [dst]).
Proof.
  destruct (addEdge_getitem g src dst) as (g' & Hadd & Hkeys & Hd & Hget).
  exists g'. split_and!; try done.
  - rewrite hasEdge_getitem, Hget, decide_True by done. simpl.
    by rewrite bool_decide_eq_true_2 by set_solver.
  - intros a b Hne. rewrite !hasEdge_getitem, Hget. f_equal.
    destruct (decide (a = src)) as [->|Ha]; simpl.
    + assert (b ≠ dst) by congruence. apply bool_decide_ext.
      rewrite elem_of_union, elem_of_singleton. tauto.
    + case_decide; [by subst|done].
  - unfold DG.listVertices. rewrite Hkeys, !keys_addVertex.
    destruct (decide (src ∈ g.*1)) as [Hs|Hs].
    + rewrite app_nil_l.
      destruct (decide (dst ∈ g.*1)) as [Hdst|Hdst].
      * rewrite decide_True by (by left). by rewrite app_nil_r.
      * case_decide as Hor; [|done]. destruct Hor as [?| ->]; done.
    + destruct (decide (dst ∈ g.*1 ++ [src])) as [Hdst|Hdst].
      * rewrite decide_True; [done|].
        apply elem_of_app in Hdst as [?|?%list_elem_of_singleton]; auto.
      * rewrite decide_False; [by rewrite <-app_assoc|].
        intros [?| ->]; apply Hdst, elem_of_app; [by left|right; by left].
Qed.

(** X19.  [removeEdge(src, dst)] never raises and returns whether the edge
    was there; afterwards the edge is gone, every other pair is an edge iff
    it was one before, and no vertex is removed; when it returns [False] the
    graph is unchanged. *)
Theorem removeEdge_spec g src dst :
  ∃ ok g',
    DG.removeEdge g src dst = Some (ok, g') ∧
    DG.hasEdge g src dst = Some ok ∧
    DG.hasEdge g' src dst = Some false ∧
    (∀ a b, (a, b) ≠ (src, dst) → DG.hasEdge g' a b = DG.hasEdge g a b) ∧
    DG.listVertices g' = DG.listVertices g ∧
    (is_dict g → is_dict g') ∧
    (ok = false → g' = g).
Proof.
  unfold DG.removeEdge. rewrite (hasEdge_getitem g src dst).
  destruct (DG.has_key g src) eqn:Hk.
  - apply has_key_true in Hk. destruct (getitem_key g src Hk) as [s Hs].
    rewrite Hs. simpl. destruct (decide (dst ∈ s)) as [Hin|Hin].
    + rewrite !bool_decide_eq_true_2 by done. eexists true, _.
      split_and!; try done.
      * rewrite hasEdge_getitem, getitem_setitem, decide_True by done. simpl.
        rewrite bool_decide_eq_false_2; [done|].
        rewrite elem_of_difference, elem_of_singleton. tauto.
      * intros a b Hne. rewrite !hasEdge_getitem, getitem_setitem. f_equal.
        destruct (decide (a = src)) as [->|Ha]; [|done]. rewrite Hs. simpl.
        assert (b ≠ dst) by congruence. apply bool_decide_ext.
        rewrite elem_of_difference, elem_of_singleton. tauto.
      * unfold DG.listVertices. by rewrite keys_setitem, decide_True.
      * apply is_dict_setitem.
    + rewrite !bool_decide_eq_false_2 by done. eexists false, g.
      split_and!; try done.
      rewrite hasEdge_getitem, Hs. simpl. by rewrite bool_decide_eq_false_2.
  - apply has_key_false, getitem_None in Hk. rewrite Hk. simpl.
    rewrite bool_decide_eq_false_2 by set_solver. eexists false, g.
    split_and!; try done.
    rewrite hasEdge_getitem, Hk. simpl. by rewrite bool_decide_eq_false_2 by set_solver.
Qed.

(** X20.  In a graph whose dict has each key once, [u] is listed by
    [listIncomingVertices(v)] iff [v] is listed by
    [listOutgoingAdjacentVertex(u)] iff [hasEdge(u, v)]; neither list
    repeats a vertex, and the incoming list follows the order of
    [listVertices]. *)
Theorem adjacency_lists g u v :
  is_dict g →
  (u ∈ DG.listIncomingVertices g v ↔ DG.hasEdge g u v = Some true) ∧
  (v ∈ DG.listOutgoingAdjacentVertex g u ↔ DG.hasEdge g u v = Some true) ∧
  NoDup (DG.listIncomingVertices g v) ∧
  NoDup (DG.listOutgoingAdjacentVertex g u) ∧
  DG.listIncomingVertices g v `sublist_of` DG.listVertices g.
Proof.
  intros Hd.
  assert (DG.hasEdge g u v = Some true ↔ ∃ s, DG.getitem g u = Some s ∧ v ∈ s)
    as Hedge.
  { rewrite hasEdge_getitem. split.
    - intros [= Hin%bool_decide_eq_true].
      destruct (DG.getitem g u) as [s|]; [eauto|].
      by apply not_elem_of_empty in Hin.
    - intros (s & -> & Hin). simpl. by rewrite bool_decide_eq_true_2. }
  split_and!.
  - rewrite Hedge. unfold DG.listIncomingVertices.
    rewrite list_elem_of_fmap. split.
    + intros ([k s] & -> & [Hv Hin]%list_elem_of_filter). simpl in *.
      exists s. split; [by apply getitem_elem|done].
    + intros (s & Hs%getitem_elem & Hv); [|done].
      exists (u, s). split; [done|]. by apply list_elem_of_filter.
  - rewrite Hedge. unfold DG.listOutgoingAdjacentVertex.
    destruct (DG.getitem g u) as [s|].
    + rewrite elem_of_elements. split; [eauto|]. by intros (s' & [= <-] & ?).
    + split; [by intros ?%elem_of_nil|]. by intros (s' & ? & _).
  - eapply sublist_NoDup; [exact Hd|]. apply fmap_sublist, sublist_filter.
  - unfold DG.listOutgoingAdjacentVertex.
    destruct (DG.getitem g u); [apply NoDup_elements|constructor].
  - apply fmap_sublist, sublist_filter.
Qed.

(** X21.  "Every followed vertex is a vertex" holds of the empty graph and
    is kept by [addVertex], [addEdge] and [removeEdge]. *)
Theorem closed_preserved g :
  is_dict g → closed g →
  closed (DG.__init__ (V:=V)) ∧
  (∀ v, closed (DG.addVertex g v)) ∧
  (∀ src dst g', DG.addEdge g src dst = Some g' → closed g') ∧
  (∀ src dst ok g', DG.removeEdge g src dst = Some (ok, g') → closed g').
Proof.
  intros Hd Hc. split_and!.
  - intros v s w Hin. by apply elem_of_nil in Hin.
  - intros v a s w Hin Hw.
    apply getitem_elem in Hin; [|by apply is_dict_addVertex].
    rewrite getitem_addVertex in Hin. apply keys_addVertex_subseteq.
    case_decide; simplify_eq.
    + by eapply closed_adj.
    + apply getitem_elem in Hin; [|done]. by eapply Hc.
  - intros src dst g' Hadd.
    destruct (addEdge_getitem g src dst) as (g2 & Hadd' & Hkeys & Hd' & Hget).
    rewrite Hadd in Hadd'. simplify_eq. intros a s w Hin Hw.
    apply getitem_elem in Hin; [|by apply Hd'].
    rewrite Hget in Hin. rewrite Hkeys.
    destruct (decide (a = src)); simplify_eq.
    + apply elem_of_union in Hw as [Hw| ->%elem_of_singleton].
      * do 2 apply keys_addVertex_subseteq. by eapply closed_adj.
      * apply keys_addVertex_self.
    + do 2 apply keys_addVertex_subseteq.
      destruct (decide (a = dst)); simplify_eq.
      * by eapply closed_adj.
      * apply getitem_elem in Hin; [|done]. by eapply Hc.
  - intros src dst ok g' Hrem. unfold DG.removeEdge in Hrem.
    destruct (DG.has_key g src) eqn:Hk; [|by simplify_eq].
    apply has_key_true in Hk. destruct (getitem_key g src Hk) as [s Hs].
    rewrite Hs in Hrem. simpl in Hrem.
    destruct (bool_decide (dst ∈ s)); simplify_eq; [|done].
    intros a s' w Hin Hw.
    apply getitem_elem in Hin; [|by apply is_dict_setitem].
    rewrite getitem_setitem in Hin. rewrite keys_setitem, decide_True by done.
    destruct (decide (a = src)); simplify_eq.
    + apply elem_of_difference in Hw as [Hw _].
      apply getitem_elem in Hs; [|done]. by eapply Hc.
    + apply getitem_elem in Hin; [|done]. by eapply Hc.
Qed.

(** [removeEdge] on the level of lookups. *)
Lemma removeEdge_getitem g src dst :
  ∃ g',
    DG.removeEdge g src dst
    = Some (bool_decide (dst ∈ default ∅ (DG.getitem g src)), g') ∧
    g'.*1 = g.*1 ∧
    (is_dict g → is_dict g') ∧
    ∀ u, default ∅ (DG.getitem g' u)
         = if decide (u = src) then default ∅ (DG.getitem g src) ∖ {[dst]}
           else default ∅ (DG.getitem g u).
Proof.
  assert (∀ s : gset V, dst ∉ s → s = s ∖ {[dst]}) as Hdiff.
  { intros s Hs. apply set_eq. intros x.
    rewrite elem_of_difference, elem_of_singleton. split; [|tauto].
    intros Hx. split; [done|]. by intros ->. }
  unfold DG.removeEdge. destruct (DG.has_key g src) eqn:Hk.
  - apply has_key_true in Hk. destruct (getitem_key g src Hk) as [s Hs].
    rewrite Hs. simpl. destruct (decide (dst ∈ s)) as [Hin|Hin].
    + rewrite !bool_decide_eq_true_2 by done. eexists. split; [done|].
      split_and!.
      * by rewrite keys_setitem, decide_True.
      * apply is_dict_setitem.
      * intros u. rewrite getitem_setitem. by case_decide.
    + rewrite !bool_decide_eq_false_2 by done. exists g. split_and!; try done.
      intros u. case_decide; [|done]. subst u. rewrite Hs. simpl. by apply Hdiff.
  - apply has_key_false, getitem_None in Hk. rewrite Hk. simpl.
    rewrite bool_decide_eq_false_2 by apply not_elem_of_empty.
    exists g. split_and!; try done.
    intros u. case_decide; [|done]. subst u. rewrite Hk. simpl.
    apply Hdiff, not_elem_of_empty.
Qed.

(** X22.  Following and then unfollowing: [add_follow(a, b)] never raises,
    the [unfollow(a, b)] after it returns [True], and then [b] is not
    followed by [a], every other pair follows iff it did before, and the
    list of people is untouched. *)
Theorem follow_then_unfollow (self : SlowGramApp.t (V:=V)) a b :
  ∃ self1 self2,
    SlowGramApp.add_follow self a b = Some self1 ∧
    SlowGramApp.unfollow self1 a b = Some (true, self2) ∧
    DG.hasEdge (SlowGramApp.mygraph self1) a b = Some true ∧
    DG.hasEdge (SlowGramApp.mygraph self2) a b = Some false ∧
    (∀ x y, (x, y) ≠ (a, b) →
       DG.hasEdge (SlowGramApp.mygraph self2) x y
       = DG.hasEdge (SlowGramApp.mygraph self) x y) ∧
    SlowGramApp.people self2 = SlowGramApp.people self.
Proof.
  destruct (addEdge_getitem (SlowGramApp.mygraph self) a b)
    as (g1 & Hadd & _ & _ & Hget1).
  destruct (removeEdge_getitem g1 a b) as (g2 & Hrem & _ & _ & Hget2).
  assert (default ∅ (DG.getitem g1 a)
          = default ∅ (DG.getitem (SlowGramApp.mygraph self) a) ∪ {[b]}) as Ha.
  { by rewrite Hget1, decide_True. }
  rewrite Ha in Hrem, Hget2.
  rewrite bool_decide_eq_true_2 in Hrem
    by (apply elem_of_union; right; by apply elem_of_singleton).
  unfold SlowGramApp.add_follow, SlowGramApp.unfollow. rewrite Hadd. simpl.
  eexists _, _. split; [done|]. simpl. rewrite Hrem. simpl.
  split_and!; try done.
  - rewrite hasEdge_getitem, Ha. f_equal. apply bool_decide_eq_true_2.
    apply elem_of_union. right. by apply elem_of_singleton.
  - rewrite hasEdge_getitem, Hget2, decide_True by done. f_equal.
    apply bool_decide_eq_false_2.
    rewrite elem_of_difference, elem_of_singleton. tauto.
  - intros x y Hne. rewrite !hasEdge_getitem, Hget2. f_equal.
    destruct (decide (x = a)) as [->|Hx].
    + assert (y ≠ b) by congruence. apply bool_decide_ext.
      rewrite elem_of_difference, elem_of_union, elem_of_singleton. tauto.
    + rewrite Hget1, decide_False by done. case_decide; [by subst|done].
Qed.

(** X23.  [add_person] appends the person to [people], also when it is
    there already, and makes it a vertex; if every person was a vertex
    before, every person is a vertex after [add_person], [add_follow] and
    [unfollow]. *)
Theorem people_are_vertices (self : SlowGramApp.t (V:=V)) :
  (∀ p, p ∈ SlowGramApp.people self →
        p ∈ DG.listVertices (SlowGramApp.mygraph self)) →
  (∀ person,
     SlowGramApp.people (SlowGramApp.add_person self person)
     = SlowGramApp.people self ++ [person] ∧
     ∀ p, p ∈ SlowGramApp.people (SlowGramApp.add_person self person) →
          p ∈ DG.listVertices
                (SlowGramApp.mygraph (SlowGramApp.add_person self person))) ∧
  (∀ a b self',
     SlowGramApp.add_follow self a b = Some self' →
     ∀ p, p ∈ SlowGramApp.people self' →
          p ∈ DG.listVertices (SlowGramApp.mygraph self')) ∧
  (∀ a b ok self',
     SlowGramApp.unfollow self a b = Some (ok, self') →
     ∀ p, p ∈ SlowGramApp.people self' →
          p ∈ DG.listVertices (SlowGramApp.mygraph self')).
Proof.
  intros Hv. split_and!.
  - intros person. split; [done|]. simpl.
    intros p [Hp| ->%list_elem_of_singleton]%elem_of_app.
    + by apply keys_addVertex_subseteq, Hv.
    + apply keys_addVertex_self.
  - intros a b self' Hf. unfold SlowGramApp.add_follow in Hf.
    destruct (addEdge_getitem (SlowGramApp.mygraph self) a b)
      as (g1 & Hadd & Hkeys & _).
    rewrite Hadd in Hf. simplify_eq/=. intros p Hp.
    unfold DG.listVertices. rewrite Hkeys.
    do 2 apply keys_addVertex_subseteq. by apply Hv.
  - intros a b ok self' Hu. unfold SlowGramApp.unfollow in Hu.
    destruct (removeEdge_getitem (SlowGramApp.mygraph self) a b)
      as (g1 & Hrem & Hkeys & _).
    rewrite Hrem in Hu. simplify_eq/=. intros p Hp.
    unfold DG.listVertices. rewrite Hkeys. by apply Hv.
Qed.

End GraphProofs.

(** ** factorial, one step at a time *)

Lemma factorial_value (n : Z) :
  (0 ≤ n)%Z → factorial n = Ok (Z.of_nat (fact (Z.to_nat n))).
Proof.
  intros Hn. unfold factorial, range.
  destruct (Z.ltb_spec n 0) as [?|_]; [lia|]. f_equal.
  destruct (decide (n = 0%Z)) as [->|Hne]; [done|].
  replace (n + 1 - 2)%Z with (Z.of_nat (Z.to_nat n - 1)) by lia.
  rewrite factorial_loop. do 2 f_equal. lia.
Qed.

(** X16.  For [n >= 0], [factorial(n)] is at least 1 and
    [factorial(n + 1)] is [(n + 1) * factorial(n)]. *)
Theorem factorial_recurrence (n : Z) :
  (0 ≤ n)%Z →
  ∃ x, factorial n = Ok x ∧ (1 ≤ x)%Z ∧
       factorial (n + 1) = Ok ((n + 1) * x)%Z.
Proof.
  intros Hn. exists (Z.of_nat (fact (Z.to_nat n))). split_and!.
  - by apply factorial_value.
  - pose proof (lt_O_fact (Z.to_nat n)). lia.
  - rewrite factorial_value by lia. f_equal.
    replace (Z.to_nat (n + 1)) with (S (Z.to_nat n)) by lia.
    change (fact (S (Z.to_nat n))) with (S (Z.to_nat n) * fact (Z.to_nat n))%nat.
    rewrite Nat2Z.inj_mul. f_equal. lia.
Qed.

(** * Examples for the further properties *)

Lemma reachable_a : reachable toy_hash table_a.
Proof. exists 1, 5%Z, [Insert "a" (PyObj 1%Z) true]. reflexivity. Defined.

Lemma consistent_ref_shop : consistent toy_hash ref_shop.
Proof.
  split_and!.
  - exists 1, 5%Z, [Insert "SKU-0001" (PyObj 0) false;
                    Insert "SKU-0002" (PyObj 1) false].
    reflexivity.
  - apply (bool_decide_unpack _). exact I.
  - intros k v. unfold ref_shop, HT.items. simpl. split.
    + intros Hin. apply elem_of_cons in Hin as [Hin|Hin].
      * injection Hin as -> ->. exists 0. split; [left|done].
      * apply elem_of_cons in Hin as [Hin|Hin]; [|by apply elem_of_nil in Hin].
        injection Hin as -> ->. exists 1. split; [right; left|done].
    + intros (r & Hr & -> & ->).
      apply elem_of_cons in Hr as [->|Hr]; [left|].
      apply elem_of_cons in Hr as [->|Hr]; [right; left|].
      by apply elem_of_nil in Hr.
Defined.

Lemma insert_frame_witness :
  HT.get toy_hash table_abcd "a" = HT.get toy_hash table_abc "a".
Proof.
  apply (insert_frame toy_hash table_abc "d" (PyObj 4%Z) false 2 true table_abcd "a"
           reachable_abc); [reflexivity|discriminate].
Defined.

Lemma delete_frame_witness :
  HT.get toy_hash table_ac "b" = Ok PyNone ∧
  HT.get toy_hash table_ac "c" = HT.get toy_hash table_abc "c".
Proof.
  destruct (delete_frame toy_hash table_abc "b" true table_ac reachable_abc)
    as [Hb Hother]; [reflexivity|].
  split; [exact Hb|]. apply Hother. discriminate.
Defined.

Lemma insert_rejects_iff_witness :
  (false = false ↔ false = false ∧ ¬ absent table_a "a") ∧
  (false = false → table_a = table_a).
Proof.
  apply (insert_rejects_iff toy_hash table_a "a" (PyObj 2%Z) false 1 false table_a
           reachable_a).
  reflexivity.
Defined.

Lemma insert_update_in_place_witness :
  true = true ∧
  HT.get toy_hash (HT.Build 5 [[]; []; [("a", PyObj 9%Z)]; []; []] 1) "a"
  = Ok (PyObj 9%Z) ∧
  (λ b : list (string * Any Z), b.*1)
    <$> HT._buckets (HT.Build 5 [[]; []; [("a", PyObj 9%Z)]; []; []] 1)
  = (λ b : list (string * Any Z), b.*1) <$> HT._buckets table_a ∧
  HT._size (HT.Build 5 [[]; []; [("a", PyObj 9%Z)]; []; []] 1) = HT._size table_a ∧
  HT._capacity (HT.Build 5 [[]; []; [("a", PyObj 9%Z)]; []; []] 1)
  = HT._capacity table_a.
Proof.
  apply (insert_update_in_place toy_hash table_a "a" (PyObj 9%Z) 1 true _ reachable_a).
  - intros Ha. apply (Ha (PyObj 1%Z)). unfold table_a, HT.items. simpl. left.
  - reflexivity.
Defined.

Lemma insert_after_delete_witness :
  true = true ∧
  HT.get toy_hash
    (HT.Build 5 [[]; []; [("a", PyObj 1%Z)]; [("b", PyObj 7%Z)]; [("c", PyObj 3%Z)]] 3)
    "b" = Ok (PyObj 7%Z) ∧
  HT.__len__
    (HT.Build 5 [[]; []; [("a", PyObj 1%Z)]; [("b", PyObj 7%Z)]; [("c", PyObj 3%Z)]] 3)
  = (HT.__len__ table_ac + 1)%Z.
Proof.
  apply (insert_after_delete toy_hash table_abc "b" (PyObj 7%Z) false 1 true table_ac
           true _ reachable_abc); reflexivity.
Defined.

Lemma capacity_never_shrinks_witness :
  (Z.max 5 3 ≤ HT._capacity table_abc)%Z ∧
  (HT._capacity table_abc ≤ HT._capacity table_abcd)%Z.
Proof.
  destruct (capacity_never_shrinks (Obj:=Z) toy_hash) as [Hrun Hstep]. split.
  - apply (Hrun 2 3%Z abc_ops). reflexivity.
  - apply (Hstep 2 table_abc (Insert "d" (PyObj 4%Z) false) table_abcd reachable_abc).
    reflexivity.
Defined.

Lemma resize_leaves_room_witness :
  (2 * HT._size table_abcd ≤ HT._capacity table_abcd)%Z.
Proof.
  apply (resize_leaves_room toy_hash table_abc "d" (PyObj 4%Z) false 2 true table_abcd
           reachable_abc); [reflexivity|discriminate].
Defined.

Lemma items_are_the_entries_witness :
  HT.get toy_hash table_abc "c" = Ok (PyObj 3%Z) ∧
  HT.get toy_hash table_abc "z" = Ok PyNone.
Proof.
  destruct (items_are_the_entries toy_hash table_abc reachable_abc)
    as (_ & _ & Hin & Hout).
  split.
  - apply Hin. unfold table_abc, HT.items. simpl. right. right. left.
  - apply Hout. unfold table_abc, HT.items. simpl. intros Hz.
    repeat (apply elem_of_cons in Hz as [Hz|Hz]; [discriminate Hz|]).
    by apply elem_of_nil in Hz.
Defined.

Lemma insert_product_spec_witness :
  ∃ ok self',
    Inventory.insert_product toy_hash 2 ref_shop 1 = Ok (ok, self') ∧
    consistent toy_hash self' ∧
    Inventory.heap self' = Inventory.heap ref_shop ∧
    (ok = true ↔
       sku (Inventory.heap ref_shop 1)
       ∉ (λ r, sku (Inventory.heap ref_shop r)) <$> Inventory.array ref_shop) ∧
    (ok = true →
       Inventory.array self' = Inventory.array ref_shop ++ [1] ∧
       Inventory.search_by_sku toy_hash self' (sku (Inventory.heap ref_shop 1))
       = Ok (PyObj 1)) ∧
    (ok = false → self' = ref_shop).
Proof. exact (insert_product_spec toy_hash 0 ref_shop 1 consistent_ref_shop). Defined.

Lemma search_by_sku_spec_witness :
  Inventory.search_by_sku toy_hash ref_shop "SKU-0002" = Ok (PyObj 1) ∧
  Inventory.search_by_sku toy_hash ref_shop "SKU-0009" = Ok PyNone.
Proof.
  destruct (search_by_sku_spec toy_hash ref_shop "SKU-0002" consistent_ref_shop)
    as (_ & Hhit & _).
  destruct (search_by_sku_spec toy_hash ref_shop "SKU-0009" consistent_ref_shop)
    as (_ & _ & Hmiss).
  split.
  - apply Hhit; [right; left|reflexivity].
  - apply Hmiss. unfold ref_shop. simpl. intros Hin.
    repeat (apply elem_of_cons in Hin as [Hin|Hin]; [discriminate Hin|]).
    by apply elem_of_nil in Hin.
Defined.

Lemma edit_product_spec_witness :
  (∃ self',
     Inventory.edit_product toy_hash sample_float sample_int ref_shop "SKU-0002"
       None None (Some (AFloat (25 # 2))) (Some (AFloat (2995 # 10)))
     = Ok (Inventory.Returns true, self') ∧
     Inventory.search_by_sku toy_hash self' "SKU-0002" = Ok (PyObj 1) ∧
     1 ∈ Inventory.array self' ∧
     price (Inventory.heap self' 1) = (25 # 2)%Q ∧
     stock (Inventory.heap self' 1) = 299%Z ∧
     name (Inventory.heap self' 1) = name wipes) ∧
  (∃ self',
     Inventory.edit_product toy_hash sample_float sample_int ref_shop "SKU-0002"
       (Some "Wipes") None (Some AText) (Some (AFloat 7))
     = Ok (Inventory.Propagates ValueError, self') ∧
     name (Inventory.heap self' 1) = "Wipes" ∧
     price (Inventory.heap self' 1) = price wipes ∧
     stock (Inventory.heap self' 1) = stock wipes).
Proof.
  split.
  - destruct (edit_product_spec toy_hash sample_float sample_int ref_shop "SKU-0002"
                None None (Some (AFloat (25 # 2))) (Some (AFloat (2995 # 10)))
                consistent_ref_shop) as [Hfound _].
    destruct (Hfound 1) as (out & self' & Hedit & _ & _ & _ & Hin & Hsearch & _ & _
                            & Hname & _ & Hprice & _ & Hstock); [reflexivity|].
    destruct Hstock as [Hstock Hout]; [intros x e [= <-]; discriminate|].
    exists self'. rewrite Hout in Hedit. split_and!; assumption.
  - destruct (edit_product_spec toy_hash sample_float sample_int ref_shop "SKU-0002"
                (Some "Wipes") None (Some AText) (Some (AFloat 7))
                consistent_ref_shop) as [Hfound _].
    destruct (Hfound 1) as (out & self' & Hedit & _ & _ & _ & _ & _ & _ & _
                            & Hname & _ & Hprice & Hraise & _); [reflexivity|].
    destruct (Hraise AText ValueError eq_refl eq_refl) as [Hout Hstock].
    exists self'. rewrite Hout in Hedit. split_and!; assumption.
Defined.

Lemma delete_product_spec_witness :
  ∃ ok self',
    Inventory.delete_product toy_hash ref_shop "SKU-0001" = Ok (ok, self') ∧
    consistent toy_hash self' ∧
    Inventory.heap self' = Inventory.heap ref_shop ∧
    (ok = true ↔
       "SKU-0001"
       ∈ (λ r, sku (Inventory.heap ref_shop r)) <$> Inventory.array ref_shop) ∧
    Inventory.array self'
    = filter (λ r, sku (Inventory.heap ref_shop r) ≠ "SKU-0001")
        (Inventory.array ref_shop) ∧
    Inventory.search_by_sku toy_hash self' "SKU-0001" = Ok PyNone ∧
    (ok = false → self' = ref_shop).
Proof. exact (delete_product_spec toy_hash ref_shop "SKU-0001" consistent_ref_shop). Defined.

Lemma list_products_spec_witness :
  ∃ l,
    Inventory.list_products ref_shop = Inventory.Listed l ∧
    l ≡ₚ Inventory.array ref_shop ∧
    Sorted (λ a b, String.leb (sku (Inventory.heap ref_shop a))
                              (sku (Inventory.heap ref_shop b)) = true) l.
Proof. exact (list_products_spec toy_hash ref_shop consistent_ref_shop). Defined.

Lemma init_seeds_samples_witness :
  ∃ self,
    Inventory.__init__ toy_hash 2 (λ _, diapers) 0 5 = Ok self ∧
    Inventory.search_by_sku toy_hash self (sku (Inventory.heap self 3))
    = Ok (PyObj 3).
Proof.
  destruct (init_seeds_samples toy_hash 0 (λ _, diapers) 0 5)
    as (self & Hinit & _ & Harray & _ & _ & Hsearch & _).
  exists self. split; [exact Hinit|]. apply Hsearch. rewrite Harray.
  simpl. do 3 right. left.
Defined.

Lemma factorial_recurrence_witness :
  ∃ x, factorial 4 = Ok x ∧ (1 ≤ x)%Z ∧ factorial (4 + 1) = Ok ((4 + 1) * x)%Z.
Proof. apply (factorial_recurrence 4). lia. Defined.

Lemma addVertex_spec_witness :
  is_dict (DG.addVertex (DG.__init__ (V:=nat)) 1) ∧
  DG.listOutgoingAdjacentVertex (DG.addVertex (DG.__init__ (V:=nat)) 1) 1 = [].
Proof.
  destruct (addVertex_spec (DG.__init__ (V:=nat)) 1) as (Hd & _ & _ & _ & Hout).
  split.
  - apply Hd. constructor.
  - apply Hout. intros Hin. by apply elem_of_nil in Hin.
Defined.

Lemma addEdge_spec_witness :
  ∃ g',
    DG.addEdge (DG.__init__ (V:=nat)) 1 2 = Some g' ∧
    is_dict g' ∧
    DG.hasEdge g' 1 2 = Some true ∧
    DG.hasEdge g' 2 1 = DG.hasEdge DG.__init__ 2 1.
Proof.
  destruct (addEdge_spec (DG.__init__ (V:=nat)) 1 2)
    as (g' & Hadd & Hd & Hedge & Hother & _).
  exists g'. split_and!; [exact Hadd| |exact Hedge|].
  - apply Hd. constructor.
  - apply Hother. discriminate.
Defined.

Lemma removeEdge_spec_witness :
  ∃ ok g',
    DG.removeEdge (DG.__init__ (V:=nat)) 1 2 = Some (ok, g') ∧
    DG.hasEdge DG.__init__ 1 2 = Some ok ∧
    is_dict g' ∧
    DG.hasEdge g' 2 1 = DG.hasEdge DG.__init__ 2 1.
Proof.
  destruct (removeEdge_spec (DG.__init__ (V:=nat)) 1 2)
    as (ok & g' & Hrem & Hwas & _ & Hother & _ & Hd & _).
  exists ok, g'. split_and!; [exact Hrem|exact Hwas| |].
  - apply Hd. constructor.
  - apply Hother. discriminate.
Defined.

Example graph_12_built : DG.addEdge (DG.__init__ (V:=nat)) 1 2 = Some graph_12.
Proof. reflexivity. Qed.

Lemma is_dict_graph_12 : is_dict graph_12.
Proof. apply (bool_decide_unpack _). exact I. Defined.

Lemma closed_graph_12 : closed graph_12.
Proof.
  intros v s w Hin Hw. unfold graph_12 in *.
  apply elem_of_cons in Hin as [Hin|Hin].
  - injection Hin as -> ->. apply elem_of_singleton in Hw as ->.
    simpl. right. left.
  - apply elem_of_cons in Hin as [Hin|Hin]; [|by apply elem_of_nil in Hin].
    injection Hin as -> ->. by apply not_elem_of_empty in Hw.
Defined.

Lemma adjacency_lists_witness :
  1 ∈ DG.listIncomingVertices graph_12 2 ∧
  2 ∈ DG.listOutgoingAdjacentVertex graph_12 1 ∧
  (2 ∉ DG.listIncomingVertices graph_12 1) ∧
  (1 ∉ DG.listOutgoingAdjacentVertex graph_12 2) ∧
  NoDup (DG.listIncomingVertices graph_12 2) ∧
  NoDup (DG.listOutgoingAdjacentVertex graph_12 1) ∧
  DG.listIncomingVertices graph_12 2 `sublist_of` DG.listVertices graph_12.
Proof.
  destruct (adjacency_lists graph_12 1 2 is_dict_graph_12)
    as (Hin & Hout & Hnd_in & Hnd_out & Hsub).
  destruct (adjacency_lists graph_12 2 1 is_dict_graph_12)
    as (Hin' & Hout' & _).
  split_and!; [| | | |exact Hnd_in|exact Hnd_out|exact Hsub].
  - apply Hin. reflexivity.
  - apply Hout. reflexivity.
  - intros H21. apply Hin' in H21. discriminate H21.
  - intros H21. apply Hout' in H21. discriminate H21.
Defined.

Lemma closed_preserved_witness :
  closed (DG.addVertex graph_12 3) ∧
  DG.addEdge graph_12 2 3 = Some graph_123 ∧ closed graph_123 ∧
  DG.removeEdge graph_12 1 2 = Some (true, graph_12_cut) ∧ closed graph_12_cut.
Proof.
  destruct (closed_preserved graph_12 is_dict_graph_12 closed_graph_12)
    as (_ & Hvertex & Hadd & Hremove).
  split_and!.
  - apply Hvertex.
  - reflexivity.
  - apply (Hadd 2 3). reflexivity.
  - reflexivity.
  - apply (Hremove 1 2 true). reflexivity.
Defined.

Lemma follow_then_unfollow_witness :
  ∃ self1 self2,
    SlowGramApp.add_follow (SlowGramApp.__init__ (V:=nat)) 1 2 = Some self1 ∧
    SlowGramApp.unfollow self1 1 2 = Some (true, self2) ∧
    DG.hasEdge (SlowGramApp.mygraph self2) 2 1
    = DG.hasEdge (SlowGramApp.mygraph (SlowGramApp.__init__ (V:=nat))) 2 1.
Proof.
  destruct (follow_then_unfollow (SlowGramApp.__init__ (V:=nat)) 1 2)
    as (s1 & s2 & Hf & Hu & _ & _ & Hother & _).
  exists s1, s2. split_and!; [exact Hf|exact Hu|]. apply Hother. discriminate.
Defined.

Lemma people_are_vertices_witness :
  SlowGramApp.people (SlowGramApp.add_person (SlowGramApp.__init__ (V:=nat)) 7)
  = [7] ∧
  7 ∈ DG.listVertices
        (SlowGramApp.mygraph (SlowGramApp.add_person (SlowGramApp.__init__ (V:=nat)) 7)).
Proof.
  destruct (people_are_vertices (SlowGramApp.__init__ (V:=nat))) as (Hadd & _).
  - intros p Hp. by apply elem_of_nil in Hp.
  - destruct (Hadd 7) as [Hpeople Hvert]. split; [exact Hpeople|].
    apply Hvert. rewrite Hpeople. left.
Defined.
